(** * clean_and_index: stable heading identifiers and cross-reference rewriting

    A shallow embedding of [tools/clean_and_index.py]: the slug generator
    ([slugify]), the identifier allocator ([unique_id]), the classifier of
    editor-generated identifiers ([is_zendesk_generated_id]), the heading
    indexer ([add_heading_ids_and_collect]) and the reference rewriter
    ([rewrite_anchor_href], [rewrite_cross_references]).

    Python strings are sequences of Unicode code points: a string is a
    [list N].  Sets and dicts of strings are [gset] and [gmap].  Operations
    that can raise in Python ([int], indexing, unpacking, [d[k]]) return an
    [option]; the functions built from them live in the option monad and
    are proved to always return. *)

From Stdlib Require Import NArith Decimal DecimalNat.
From stdpp Require Import base option list strings gmap sets.

Local Open Scope N_scope.
Local Set Warnings "-register-all,-clear-no-such-hyp".


(** ** Strings *)

Abbreviation str := (list N).

(** A literal: the code points of an ASCII string. *)
Definition py (s : string) : str :=
  Ascii.N_of_ascii <$> String.list_ascii_of_string s.

Arguments py : simpl never.

Definition HASH : N := 35.
Definition HYPHEN : N := 45.
Definition UNDERSCORE : N := 95.
Definition SPACE : N := 32.
Definition NBSP : N := 160.

Definition in_range (lo hi c : N) : bool := (lo <=? c) && (c <=? hi).

Definition is_digit (c : N) : bool := in_range 48 57 c.
Definition is_upper (c : N) : bool := in_range 65 90 c.
Definition is_lower (c : N) : bool := in_range 97 122 c.

(** [str.isspace] on one code point: the white space that [str.strip()]
    removes (U+0009..000D, U+001C..0020, U+0085, U+00A0, U+1680,
    U+2000..200A, U+2028, U+2029, U+202F, U+205F, U+3000). *)
Definition isspace (c : N) : bool :=
  in_range 9 13 c || in_range 28 32 c || (c =? 133) || (c =? 160)
  || (c =? 5760) || in_range 8192 8202 c || (c =? 8232) || (c =? 8233)
  || (c =? 8239) || (c =? 8287) || (c =? 12288).

Fixpoint lstrip (p : N → bool) (s : str) : str :=
  match s with
  | c :: s' => if p c then lstrip p s' else s
  | [] => []
  end.

Definition rstrip (p : N → bool) (s : str) : str :=
  reverse (lstrip p (reverse s)).

(** [s.strip()] and [s.strip(chars)]: [p] says which code points go. *)
Definition strip (p : N → bool) (s : str) : str := rstrip p (lstrip p s).

(** [sep.join(parts)] *)
Fixpoint join (sep : str) (parts : list str) : str :=
  match parts with
  | [] => []
  | [p] => p
  | p :: ps => p ++ sep ++ join sep ps
  end.

(** [c in s] for a one-character [c]. *)
Definition contains (c : N) (s : str) : bool := existsb (N.eqb c) s.

(** [s.startswith(c)] for a one-character [c]. *)
Definition startswith (c : N) (s : str) : bool :=
  match s with
  | x :: _ => x =? c
  | [] => false
  end.

(** The last occurrence of [sep] in [s]: what is before it and after it. *)
Fixpoint split_last (sep : N) (s : str) : option (str * str) :=
  match s with
  | [] => None
  | c :: s' =>
      match split_last sep s' with
      | Some (b, f) => Some (c :: b, f)
      | None => if c =? sep then Some ([], s') else None
      end
  end.

(** [s.rsplit(sep, 1)]: one element when [sep] does not occur, else two. *)
Definition rsplit1 (sep : N) (s : str) : list str :=
  match split_last sep s with
  | Some (b, f) => [b; f]
  | None => [s]
  end.

(** [a, b = parts]: raises unless [parts] has exactly two elements. *)
Definition unpack2 (parts : list str) : option (str * str) :=
  match parts with
  | [a; b] => Some (a, b)
  | _ => None
  end.

(** Decimal digits of an integer, as [f"{i}"] prints them. *)
Fixpoint digits (d : Decimal.uint) : str :=
  match d with
  | Nil => []
  | D0 d => 48 :: digits d
  | D1 d => 49 :: digits d
  | D2 d => 50 :: digits d
  | D3 d => 51 :: digits d
  | D4 d => 52 :: digits d
  | D5 d => 53 :: digits d
  | D6 d => 54 :: digits d
  | D7 d => 55 :: digits d
  | D8 d => 56 :: digits d
  | D9 d => 57 :: digits d
  end.

Definition str_of_int (i : nat) : str := digits (Nat.to_uint i).

(** ** Regular expressions of the source *)

(** [re.sub(r"\u00a0", " ", text)]: the no-break space becomes a space. *)
Definition sub_nbsp (s : str) : str :=
  (λ c, if c =? NBSP then SPACE else c) <$> s.

(** The class [[^a-z0-9]]. *)
Definition not_alnum (c : N) : bool := negb (is_lower c || is_digit c).

(** [re.sub(r"[^a-z0-9]+", "-", text)]: every maximal run of code points
    outside [a-z0-9] becomes one hyphen.  [inrun] says that the run the
    previous code point belongs to has been replaced already. *)
Fixpoint sub_runs (inrun : bool) (s : str) : str :=
  match s with
  | [] => []
  | c :: s' =>
      if not_alnum c
      then (if inrun then sub_runs true s' else HYPHEN :: sub_runs true s')
      else c :: sub_runs false s'
  end.

(** [re.sub(r"-{2,}", "-", text)]: a hyphen followed by a hyphen is
    dropped, so that a run of two or more becomes one. *)
Fixpoint sub_hyphens (s : str) : str :=
  match s with
  | c :: s' =>
      match s' with
      | d :: _ =>
          if (c =? HYPHEN) && (d =? HYPHEN) then sub_hyphens s'
          else c :: sub_hyphens s'
      | [] => [c]
      end
  | [] => []
  end.

(** The class [[0-9A-Z]]. *)
Definition is_upper_alnum (c : N) : bool := is_digit c || is_upper c.

(** [is_zendesk_generated_id(val)]: [re.fullmatch(r"h_[0-9A-Z]{20,}", val)] *)
Definition is_zendesk_generated_id (val : str) : bool :=
  match val with
  | h :: u :: rest =>
      (h =? 104) && (u =? UNDERSCORE)
      && (20 <=? length rest)%nat && forallb is_upper_alnum rest
  | _ => false
  end.

(** ** Identifier allocator *)

(** [f"{base}-{i}"] *)
Definition suffixed (base : str) (i : nat) : str :=
  base ++ HYPHEN :: str_of_int i.

(** The loop [while f"{base}-{i}" in used: i += 1], with the number of
    iterations it may take; [probe_free] shows that one more than the
    size of [used] is enough. *)
Fixpoint probe (fuel : nat) (base : str) (used : gset str) (i : nat) : nat :=
  match fuel with
  | O => i
  | S fuel' =>
      if decide (suffixed base i ∈ used)
      then probe fuel' base used (S i)
      else i
  end.

(** [unique_id(base, used)]: the token and the set after [used.add]. *)
Definition unique_id (base : str) (used : gset str) : str * gset str :=
  if decide (base ∉ used) then (base, {[base]} ∪ used)
  else
    let i := probe (S (size used)) base used 2 in
    let final := suffixed base i in
    (final, {[final]} ∪ used).

(** ** The document

    The parsed document is BeautifulSoup's tree: strings and tags with a
    name, an attribute dict and children.  A [soup] is the list of the
    top-level nodes.  The parser gives every string a class: [Text] is a
    string of the classes that [get_text] yields ([NavigableString] and
    [CData]); [Other] is a string of any other class (a comment, or the
    string held in a [script], [style], [template], [rt] or [rp] tag),
    which [get_text] skips. *)

Inductive node :=
  | Text (s : str)
  | Other (s : str)
  | Tag (name : str) (attrs : gmap str str) (children : list node).

(** What the two passes read of one tag and what they write: its name,
    its attributes (written), and the strings below it that [get_text]
    yields. *)
Record element := Element {
  tag : str;
  attrs : gmap str str;
  strings : list str;
}.

Definition set_attrs (a : gmap str str) (e : element) : element :=
  {| tag := tag e; attrs := a; strings := strings e |}.

(** The strings below a node that [get_text] yields, in document order:
    those of the classes [NavigableString] and [CData]. *)
Fixpoint node_strings (n : node) : list str :=
  match n with
  | Text s => [s]
  | Other _ => []
  | Tag _ _ kids => flat_map node_strings kids
  end.

Fixpoint node_elements (n : node) : list element :=
  match n with
  | Text _ => []
  | Other _ => []
  | Tag name a kids =>
      Element name a (flat_map node_strings kids)
      :: flat_map node_elements kids
  end.

(** [soup.find_all(True)]: every tag, in document order. *)
Definition find_all (soup : list node) : list element :=
  flat_map node_elements soup.

(** Truth value of a string: non-empty. *)
Definition nonempty (s : str) : bool :=
  match s with
  | [] => false
  | _ :: _ => true
  end.

(** [el.get_text(sep, strip=True)] on a tag that holds no special class
    of strings itself, as the headings and the links: the strings of the
    classes [NavigableString] and [CData] below the tag, stripped, the
    empty ones dropped, joined by [sep]. *)
Definition get_text (sep : str) (e : element) : str :=
  join sep (filter (λ s, nonempty s = true) (strip isspace <$> strings e)).

Definition ID : str := py "id".
Definition HREF : str := py "href".
Definition A : str := py "a".

Definition HEADING_TAGS : list str :=
  [py "h1"; py "h2"; py "h3"; py "h4"; py "h5"; py "h6"].

(** The loop [for el in soup.find_all(True)] that both passes start with:
    the non-empty values of the [id] attributes. *)
Definition collect_ids (els : list element) : gset str :=
  foldl (λ ids el,
           match attrs el !! ID with
           | Some v => if nonempty v then {[v]} ∪ ids else ids
           | None => ids
           end) ∅ els.

(** A loop [for el in soup.find_all(...)] whose body reads the tag, updates
    a state and may assign attributes of the tag.  The tags are visited in
    document order and the tree keeps its shape. *)
Section Visit.
Context {S : Type} (body : S → element → option (S * gmap str str)).

Fixpoint visit (s : S) (n : node) {struct n} : option (S * node) :=
  match n with
  | Text t => Some (s, Text t)
  | Other t => Some (s, Other t)
  | Tag name a kids =>
      '(s1, a') ← body s (Element name a (flat_map node_strings kids));
      '(s2, kids') ←
        (fix visit_kids (s : S) (ns : list node) {struct ns} :=
           match ns with
           | [] => Some (s, [])
           | n :: ns' =>
               '(s', n') ← visit s n;
               '(s'', ns'') ← visit_kids s' ns';
               Some (s'', n' :: ns'')
           end) s1 kids;
      Some (s2, Tag name a' kids')
  end.

Fixpoint visit_all (s : S) (ns : list node) : option (S * list node) :=
  match ns with
  | [] => Some (s, [])
  | n :: ns' =>
      '(s', n') ← visit s n;
      '(s'', ns'') ← visit_all s' ns';
      Some (s'', n' :: ns'')
  end.

(** The same loop over the list that [find_all] returned. *)
Fixpoint each (s : S) (els : list element) : option (S * list element) :=
  match els with
  | [] => Some (s, [])
  | el :: els' =>
      '(s1, a') ← body s el;
      '(s2, els'') ← each s1 els';
      Some (s2, set_attrs a' el :: els'')
  end.

(** Going through the tree is going through the list of its tags: the
    states agree, the tags of the new tree are the tags the loop over
    the list leaves, and the text of the tree is unchanged. *)
Definition visit_agrees (n : node) : Prop :=
  ∀ s, match visit s n with
       | Some (s', n') =>
           node_strings n' = node_strings n
           ∧ each s (node_elements n) = Some (s', node_elements n')
       | None => each s (node_elements n) = None
       end.

Definition visit_all_agrees (ns : list node) : Prop :=
  ∀ s, match visit_all s ns with
       | Some (s', ns') =>
           flat_map node_strings ns' = flat_map node_strings ns
           ∧ each s (find_all ns) = Some (s', find_all ns')
       | None => each s (find_all ns) = None
       end.

End Visit.

(** ** Heading classifier *)

(** [replace_existing_ids and (not current or is_zendesk_generated_id(current))] *)
Definition should_replace (replace_existing_ids : bool) (current : str) : bool :=
  replace_existing_ids && (negb (nonempty current) || is_zendesk_generated_id current).

(** [(h.get("id") or "").strip()]: the identifier the indexer sees. *)
Definition current_id (a : gmap str str) : str :=
  strip isspace (default [] (a !! ID)).

(** ** Heading indexer *)

Record row := Row {
  row_level : nat;
  row_heading : str;
  row_id : str;
  row_absolutePath : str;
  row_anchor : str;
  row_link : str;
}.

Record indexer_state := IndexerState {
  used_ids : gset str;
  stack : gmap nat (str * str);
  rows : list row;
  id_map : gmap str str;
}.

(** [int(c)] for a one-character string, on the ASCII digits. *)
Definition int_of_char (c : N) : option nat :=
  if is_digit c then Some (N.to_nat (c - 48)) else None.

(** [heading_level(tag_name)]: [int(tag_name[1])] *)
Definition heading_level (tag_name : str) : option nat :=
  c ← tag_name !! 1%nat; int_of_char c.

(** [stack.pop(deeper, None)] for [deeper] in [range(lvl + 1, 7)] *)
Definition pop_deeper (lvl : nat) (stack : gmap nat (str * str)) : gmap nat (str * str) :=
  foldl (λ st deeper, delete deeper st) stack (seq (lvl + 1) (7 - (lvl + 1))).

(** [[stack[i][0] for i in range(1, lvl + 1) if i in stack]] *)
Definition path_titles (lvl : nat) (stack : gmap nat (str * str)) : list str :=
  omap (λ i, fst <$> stack !! i) (seq 1 lvl).

Section Indexer.

(** [str.lower()] follows the Unicode case tables of the interpreter,
    which are no part of the repository: it is a parameter. *)
Variable lower : str → str.

(** [slugify(text)] *)
Definition slugify (text : str) : str :=
  let text := lower (strip isspace text) in
  let text := sub_nbsp text in
  let text := sub_runs false text in
  let text := strip (N.eqb HYPHEN) (sub_hyphens text) in
  if nonempty text then text else py "section".

(** The identifier of one heading: the token, the set of used identifiers
    and the identifier map after the [if should_replace: ... else: ...]. *)
Definition assign_id (replace_existing_ids : bool) (title current : str)
    (used : gset str) (idm : gmap str str) : str * gset str * gmap str str :=
  if should_replace replace_existing_ids current then
    let old := current in
    let base := slugify title in
    let '(hid, used) := unique_id base used in
    (hid, used, if nonempty old then <[old := hid]> idm else idm)
  else
    let '(hid, used) :=
      if nonempty current then (current, used)
      else unique_id (slugify title) used in
    (hid, {[hid]} ∪ used, idm).

(** The body of the loop [for h in soup.find_all(HEADING_TAGS)]. *)
Definition index_heading (page_url : str) (replace_existing_ids : bool)
    (st : indexer_state) (h : element) : option (indexer_state * gmap str str) :=
  let title := get_text (py " ") h in
  let current := current_id (attrs h) in
  let '(hid, used, idm) :=
    assign_id replace_existing_ids title current (used_ids st) (id_map st) in
  lvl ← heading_level (tag h);
  let stack := pop_deeper lvl (<[lvl := (title, hid)]> (stack st)) in
  let abs_path := join (py " > ") (path_titles lvl stack) in
  let anchor := HASH :: hid in
  let link := if nonempty page_url then page_url ++ anchor else anchor in
  Some ({| used_ids := used;
           stack := stack;
           rows := rows st ++ [Row lvl title hid abs_path anchor link];
           id_map := idm |},
        <[ID := hid]> (attrs h)).

Definition index_element (page_url : str) (replace_existing_ids : bool)
    (st : indexer_state) (el : element) : option (indexer_state * gmap str str) :=
  if bool_decide (tag el ∈ HEADING_TAGS)
  then index_heading page_url replace_existing_ids st el
  else Some (st, attrs el).

(** [add_heading_ids_and_collect(soup, page_url, replace_existing_ids)]:
    the soup as the loop leaves it, the rows and the identifier map. *)
Definition add_heading_ids_and_collect (soup : list node) (page_url : str)
    (replace_existing_ids : bool) : option (list node * list row * gmap str str) :=
  let used := collect_ids (find_all soup) in
  '(st, soup') ← visit_all (index_element page_url replace_existing_ids)
                   (IndexerState used ∅ [] ∅) soup;
  Some (soup', rows st, id_map st).

End Indexer.

(** [str.lower()] on ASCII text. *)
Definition ascii_lower (s : str) : str :=
  (λ c, if is_upper c then c + 32 else c) <$> s.

(** ** Reference rewriter *)

(** [rewrite_anchor_href(href, id_map)] *)
Definition rewrite_anchor_href (href : str) (id_map : gmap str str) : option (str * bool) :=
  if negb (nonempty href) || negb (contains HASH href) then Some (href, false)
  else
    '(base, frag) ← unpack2 (rsplit1 HASH href);
    if negb (nonempty frag) then Some (href, false)
    else if bool_decide (frag ∈ dom id_map) then
      new ← id_map !! frag;
      Some (if nonempty base then base ++ HASH :: new else HASH :: new, true)
    else Some (href, false).

Record broken_link := BrokenLink {
  bl_href : str;
  bl_text : str;
}.

Record rewriter_state := RewriterState {
  changed_count : nat;
  broken : list broken_link;
}.

(** The check under [# Track internal anchors that don't exist]. *)
Definition track_internal (current_ids : gset str) (href text : str)
    (broken : list broken_link) : list broken_link :=
  if startswith HASH href then
    let target := drop 1 href in
    if nonempty target && negb (bool_decide (target ∈ current_ids))
    then broken ++ [BrokenLink href text]
    else broken
  else broken.

(** The check under [# Track url#anchor that looks like Zendesk id and
    doesn't exist locally]. *)
Definition track_zendesk (current_ids : gset str) (href text : str)
    (broken : list broken_link) : option (list broken_link) :=
  if contains HASH href then
    frag ← rsplit1 HASH href !! 1%nat;
    Some (if nonempty frag && negb (bool_decide (frag ∈ current_ids))
             && is_zendesk_generated_id frag
          then broken ++ [BrokenLink href text]
          else broken)
  else Some broken.

(** The body of the loop [for a in soup.find_all("a")]. *)
Definition rewrite_link (id_map : gmap str str) (current_ids : gset str)
    (st : rewriter_state) (a : element) : option (rewriter_state * gmap str str) :=
  let href := default [] (attrs a !! HREF) in
  if negb (nonempty href) then Some (st, attrs a)
  else
    '(new_href, changed) ← rewrite_anchor_href href id_map;
    if changed : bool then
      Some (RewriterState (S (changed_count st)) (broken st),
            <[HREF := new_href]> (attrs a))
    else
      let text := get_text (py " ") a in
      let broken1 := track_internal current_ids href text (broken st) in
      broken2 ← track_zendesk current_ids href text broken1;
      Some (RewriterState (changed_count st) broken2, attrs a).

Definition rewrite_element (id_map : gmap str str) (current_ids : gset str)
    (st : rewriter_state) (el : element) : option (rewriter_state * gmap str str) :=
  if bool_decide (tag el = A)
  then rewrite_link id_map current_ids st el
  else Some (st, attrs el).

(** [rewrite_cross_references(soup, id_map)]: the soup as the loop leaves
    it, [changed_count] and the list of broken links. *)
Definition rewrite_cross_references (soup : list node) (id_map : gmap str str)
    : option (list node * nat * list broken_link) :=
  let current_ids := collect_ids (find_all soup) in
  '(st, soup') ← visit_all (rewrite_element id_map current_ids)
                   (RewriterState 0 []) soup;
  Some (soup', changed_count st, broken st).

(** ** Cleaning

    The document as the parser returns it, before [clean_html]: besides
    text and tags it has comments, and its attributes are any the page
    had.  [HText] is a string of any class but [Comment].  [clean_html] deletes attributes by their name and never reads a
    value, so the values are of any type [V] (BeautifulSoup holds a string
    or, for the attributes it takes as multi-valued, a list). *)

Inductive html (V : Type) :=
  | HText (s : str)
  | HComment (s : str)
  | HTag (name : str) (attrs : gmap str V) (children : list (html V)).

Arguments HText {V} s.
Arguments HComment {V} s.
Arguments HTag {V} name attrs children.

Definition SPAN : str := py "span".
Definition ZD_HTML_BLOCK : str := py "zd-html-block".
Definition STAR : str := py "*".

Definition ALLOWED_ATTRS : gmap str (gset str) :=
  {[ STAR := {[ ID ]};
     A := {[ HREF; py "title" ]};
     py "img" := {[ py "src"; py "alt"; py "title" ]};
     py "table" := {[ py "border" ]};
     py "td" := {[ py "colspan"; py "rowspan" ]};
     py "th" := {[ py "colspan"; py "rowspan" ]} ]}.

Definition UNWRAP_TAGS : gset str := {[ ZD_HTML_BLOCK; SPAN ]}.

Definition DROP_TAGS : gset str := {[ py "script"; py "style" ]}.

(** [list(UNWRAP_TAGS)]: the order in which a set of strings is listed is
    not fixed, so the two orders are told apart by a parameter. *)
Definition list_UNWRAP_TAGS (zd_first : bool) : list str :=
  if zd_first then [ZD_HTML_BLOCK; SPAN] else [SPAN; ZD_HTML_BLOCK].

(** The loop [for c in soup.find_all(string=...Comment): c.extract()]:
    what is left of a node, as the list that takes its place. *)
Fixpoint extract_comments {V} (n : html V) : list (html V) :=
  match n with
  | HText s => [HText s]
  | HComment _ => []
  | HTag name a kids => [HTag name a (flat_map extract_comments kids)]
  end.

(** The loop [for t in soup.find_all(DROP_TAGS): t.decompose()]: a tag of
    one of these names goes with everything below it. *)
Fixpoint decompose {V} (n : html V) : list (html V) :=
  match n with
  | HTag name a kids =>
      if bool_decide (name ∈ DROP_TAGS) then []
      else [HTag name a (flat_map decompose kids)]
  | _ => [n]
  end.

(** The loop [for t in soup.find_all(tag_name): t.unwrap()]: a tag of that
    name is replaced by its children. *)
Fixpoint unwrap {V} (tag_name : str) (n : html V) : list (html V) :=
  match n with
  | HTag name a kids =>
      if bool_decide (name = tag_name) then flat_map (unwrap tag_name) kids
      else [HTag name a (flat_map (unwrap tag_name) kids)]
  | _ => [n]
  end.

(** [text_node.replace("\u00a0", " ")] under [if "\u00a0" in text_node];
    [find_all(string=True)] also finds a comment, and what replaces it is
    a plain string. *)
Fixpoint normalize_nbsp {V} (n : html V) : html V :=
  match n with
  | HText s => HText (if contains NBSP s then sub_nbsp s else s)
  | HComment s => if contains NBSP s then HText (sub_nbsp s) else HComment s
  | HTag name a kids => HTag name a (normalize_nbsp <$> kids)
  end.

(** [set(ALLOWED_ATTRS.get("*", set())) | set(ALLOWED_ATTRS.get(el.name, set()))] *)
Definition allowed (name : str) : gset str :=
  default ∅ (ALLOWED_ATTRS !! STAR) ∪ default ∅ (ALLOWED_ATTRS !! name).

(** The loop that deletes every attribute that is not allowed. *)
Fixpoint strip_attributes {V} (n : html V) : html V :=
  match n with
  | HTag name a kids =>
      HTag name (filter (λ kv, kv.1 ∈ allowed name) a)
        (strip_attributes <$> kids)
  | _ => n
  end.

(** [clean_html(soup)] *)
Definition clean_html {V} (zd_first : bool) (soup : list (html V))
    : list (html V) :=
  let soup := flat_map extract_comments soup in
  let soup := flat_map decompose soup in
  let soup :=
    foldl (λ soup tag_name, flat_map (unwrap tag_name) soup) soup
      (list_UNWRAP_TAGS zd_first) in
  let soup := normalize_nbsp <$> soup in
  strip_attributes <$> soup.

(** What a node is, without what is below it. *)
Inductive kind (V : Type) :=
  | KText (s : str)
  | KComment (s : str)
  | KTag (name : str) (attrs : gmap str V).

Arguments KText {V} s.
Arguments KComment {V} s.
Arguments KTag {V} name attrs.

(** The nodes of a document, in document order. *)
Fixpoint nodes {V} (n : html V) : list (kind V) :=
  match n with
  | HText s => [KText s]
  | HComment s => [KComment s]
  | HTag name a kids => KTag name a :: flat_map nodes kids
  end.

(** A node of a cleaned document: a text without a no-break space, or a
    tag that is neither dropped nor unwrapped and has allowed attributes
    only. *)
Definition clean_kind {V} (k : kind V) : Prop :=
  match k with
  | KText s => NBSP ∉ s
  | KComment _ => False
  | KTag name a =>
      (name ∉ DROP_TAGS) ∧ (name ∉ UNWRAP_TAGS) ∧ dom a ⊆ allowed name
  end.

(** What cleaning keeps of the nodes that it does not remove. *)
Definition cleaned_kind {V} (k : kind V) : kind V :=
  match k with
  | KText s => KText (sub_nbsp s)
  | KComment s => KComment s
  | KTag name a => KTag name (filter (λ kv, kv.1 ∈ allowed name) a)
  end.

(** The nodes that cleaning removes one by one: wrappers that are
    unwrapped. *)
Definition is_tag {V} (tag_name : str) (k : kind V) : Prop :=
  match k with
  | KTag name _ => name = tag_name
  | _ => False
  end.

Definition is_comment {V} (k : kind V) : Prop :=
  match k with
  | KComment _ => True
  | _ => False
  end.

(** A wrapper that cleaning replaces by its children. *)
Definition unwrapped {V} (k : kind V) : Prop :=
  is_tag ZD_HTML_BLOCK k ∨ is_tag SPAN k.

(** A tag of one of the names in [DROP_TAGS]. *)
Definition dropped {V} (k : kind V) : Prop :=
  match k with
  | KTag name _ => name ∈ DROP_TAGS
  | _ => False
  end.

#[global] Instance is_tag_dec {V} tag_name (k : kind V) :
  Decision (is_tag tag_name k).
Proof. destruct k; cbn; apply _. Defined.

#[global] Instance is_comment_dec {V} (k : kind V) : Decision (is_comment k).
Proof. destruct k; cbn; apply _. Defined.

#[global] Instance unwrapped_dec {V} (k : kind V) : Decision (unwrapped k).
Proof. unfold unwrapped. apply _. Defined.

#[global] Instance dropped_dec {V} (k : kind V) : Decision (dropped k).
Proof. destruct k; cbn; apply _. Defined.

(** The nodes of a document in document order, each with the names of the
    tags that it is inside of, the innermost first. *)
Fixpoint located {V} (inside : list str) (n : html V)
    : list (list str * kind V) :=
  match n with
  | HText s => [(inside, KText s)]
  | HComment s => [(inside, KComment s)]
  | HTag name a kids =>
      (inside, KTag name a) :: flat_map (located (name :: inside)) kids
  end.

(** What the first two passes keep of a node, given the tags it is in. *)
Definition survives {V} (p : list str * kind V) : Prop :=
  Forall (λ name, name ∉ DROP_TAGS) p.1 ∧ ¬ is_comment p.2 ∧ ¬ dropped p.2.

#[global] Instance survives_dec {V} (p : list str * kind V) :
  Decision (survives p).
Proof. unfold survives. apply _. Defined.

(** A node of the input that cleaning keeps: it is not inside a [script]
    or [style] tag, no comment, no [script] or [style] tag itself, and no
    wrapper. *)
Definition kept {V} (p : list str * kind V) : Prop :=
  Forall (λ name, name ∉ DROP_TAGS) p.1
  ∧ ¬ is_comment p.2 ∧ ¬ dropped p.2 ∧ ¬ unwrapped p.2.

#[global] Instance kept_dec {V} (p : list str * kind V) : Decision (kept p).
Proof. unfold kept. apply _. Defined.

(** ** What the specification says, in its own words *)

(** A slug character: a lowercase letter, a digit or a hyphen. *)
Definition slug_char (c : N) : bool :=
  is_lower c || is_digit c || (c =? HYPHEN).

(** The editor-generated pattern: [h_] followed by 20 or more characters
    drawn from [0-9A-Z]. *)
Definition editor_generated (s : str) : Prop :=
  ∃ rest, s = py "h_" ++ rest ∧ (20 ≤ length rest)%nat
          ∧ Forall (λ c, 48 ≤ c ≤ 57 ∨ 65 ≤ c ≤ 90) rest.

(** The slug before the fallback: the text trimmed, lowercased and
    normalised by the substitutions of [slugify]. *)
Definition normalized (lower : str → str) (text : str) : str :=
  strip (N.eqb HYPHEN)
    (sub_hyphens (sub_runs false (sub_nbsp (lower (strip isspace text))))).

(** The identifier tokens that the tags of a document carry, in document
    order: the non-empty values of the [id] attributes. *)
Definition id_value (el : element) : list str :=
  match attrs el !! ID with
  | Some v => if nonempty v then [v] else []
  | None => []
  end.

Definition ids_of (els : list element) : list str := flat_map id_value els.

Definition document_ids (soup : list node) : list str := ids_of (find_all soup).

(** Two documents of the same shape: the same strings, the same tags with
    the same names, and attributes related by [R] tag by tag. *)
Inductive same_shape (R : str → gmap str str → gmap str str → Prop)
    : node → node → Prop :=
  | same_Text s : same_shape R (Text s) (Text s)
  | same_Other s : same_shape R (Other s) (Other s)
  | same_Tag name a a' kids kids' :
      R name a a' →
      Forall2 (same_shape R) kids kids' →
      same_shape R (Tag name a kids) (Tag name a' kids').

(** The attributes [a'] of a tag after the rewriting pass against the
    attributes [a] before it: every attribute but [href] is the same, and
    [href] differs only on an [a] tag whose fragment is a key of the map. *)
Definition attrs_frame (m : gmap str str) (name : str)
    (a a' : gmap str str) : Prop :=
  (∀ k, k ≠ HREF → a' !! k = a !! k)
  ∧ (a' !! HREF ≠ a !! HREF →
     name = A
     ∧ ∃ href base frag,
         a !! HREF = Some href
         ∧ split_last HASH href = Some (base, frag)
         ∧ frag ∈ dom m).

(** A path stack with no level above 6. *)
Definition bounded (stack : gmap nat (str * str)) : Prop :=
  ∀ k, is_Some (stack !! k) → (k ≤ 6)%nat.

(** The value of the [id] attribute of a tag without the white space
    around it; empty when the tag has no such attribute. *)
Definition stripped_id (el : element) : str :=
  strip isspace (default [] (attrs el !! ID)).

(** A heading whose identifier is preserved: what is left of it without
    the white space around it is not empty and, when
    [replace_existing_ids] is set, does not match the editor-generated
    pattern. *)
Definition preserves (flag : bool) (el : element) : bool :=
  nonempty (stripped_id el)
  && negb (flag && is_zendesk_generated_id (stripped_id el)).

(** The identifier of the input that a tag still carries after the
    indexing: the stripped identifier of a heading that preserves it, and
    the identifier of a tag that is no heading. *)
Definition preserved_id (flag : bool) (el : element) : list str :=
  if bool_decide (tag el ∈ HEADING_TAGS)
  then (if preserves flag el then [stripped_id el] else [])
  else id_value el.

Definition preserved_ids (flag : bool) (els : list element) : list str :=
  flat_map (preserved_id flag) els.

(** The identifier that the indexing has allocated: the one that a
    heading carries after it ([p.2]) when the identifier it had before
    ([p.1]) is not preserved. *)
Definition allocated_id (flag : bool) (p : element * element) : list str :=
  if bool_decide (tag p.1 ∈ HEADING_TAGS) && negb (preserves flag p.1)
  then id_value p.2
  else [].

Definition allocated_ids (flag : bool) (before after : list element)
    : list str :=
  flat_map (allocated_id flag) (zip before after).

(** The identifiers that the headings preserve have no white space around
    them in the input. *)
Definition preserved_trimmed (flag : bool) (els : list element) : Prop :=
  Forall (λ el, tag el ∈ HEADING_TAGS → preserves flag el = true →
                ∀ v, attrs el !! ID = Some v → strip isspace v = v) els.

(** Every entry of the identifier map renames an editor-generated
    identifier to a token of slug characters that is among [ids]. *)
Definition map_ok (idm : gmap str str) (ids : list str) : Prop :=
  ∀ old new, idm !! old = Some new →
    is_zendesk_generated_id old = true
    ∧ Forall (λ c, slug_char c = true) new
    ∧ new ∈ ids.

(** The new [href] of a link that the rewriter rewrites. *)
Definition retargeted (m : gmap str str) (a : gmap str str) : option str :=
  href ← a !! HREF;
  '(base, frag) ← split_last HASH href;
  new ← m !! frag;
  if nonempty frag then Some (base ++ HASH :: new) else None.

(** The broken links after the two checks on a link that is not rewritten. *)
Definition reported (ids : gset str) (a : element)
    (broken : list broken_link) : list broken_link :=
  let href := default [] (attrs a !! HREF) in
  let text := get_text (py " ") a in
  let broken1 := track_internal ids href text broken in
  match split_last HASH href with
  | Some (_, frag) =>
      if nonempty frag && negb (bool_decide (frag ∈ ids))
         && is_zendesk_generated_id frag
      then broken1 ++ [BrokenLink href text]
      else broken1
  | None => broken1
  end.

(** The number of tags whose [href] is not what it was. *)
Definition count_mutated (before after : list element) : nat :=
  length (filter (λ p, attrs p.1 !! HREF ≠ attrs p.2 !! HREF) (zip before after)).

(** ** Documents of the examples *)

Definition ZD_ID : str := py "h_01F2GC36KSSZJMS4VPK8SSSZ7B".

(** The end-to-end scenario: two headings, a link to the first heading and
    a link to an identifier that does not exist. *)
Definition scenario : list node :=
  [ Tag (py "h1") {[ID := ZD_ID]} [Text (py "Getting Started")];
    Tag (py "h2") ∅ [Text (py "Install")];
    Tag A {[HREF := HASH :: ZD_ID]} [Text (py "top")];
    Tag A {[HREF := py "#missing"]} [Text (py "gone")] ].

(** Two headings with the same identifier chosen by the author. *)
Definition twice_intro : list node :=
  [ Tag (py "h1") {[ID := py "intro"]} [Text (py "Introduction")];
    Tag (py "h2") {[ID := py "intro"]} [Text (py "More")] ].

(** Two headings with the same editor-generated identifier, and a
    paragraph with an identifier of the author. *)
Definition twice_editor : list node :=
  [ Tag (py "h2") {[ID := ZD_ID]} [Text (py "Overview")];
    Tag (py "p") {[ID := py "lead"]} [Text (py "First")];
    Tag (py "h2") {[ID := ZD_ID]} [Text (py "Overview")] ].

(** Headings for the classifier: an editor-generated identifier, an
    identifier of the author, no identifier, and an empty identifier. *)
Definition classified : list node :=
  [ Tag (py "h2") {[ID := py "h_0000000000000000000A"]} [Text (py "Alpha")];
    Tag (py "h2") {[ID := py "intro-section"]} [Text (py "Beta")];
    Tag (py "h2") ∅ [Text (py "Gamma")];
    Tag (py "h2") {[ID := []]} [Text (py "Delta")] ].

(** Headings whose identifier has white space around it: nothing else,
    and an editor-generated identifier. *)
Definition padded_ids : list node :=
  [ Tag (py "h2") {[ID := py "  "]} [Text (py "Epsilon")];
    Tag (py "h2") {[ID := py " h_0000000000000000000A "]} [Text (py "Zeta")] ].

(** An outline that skips a level and comes back to the first one. *)
Definition outline : list node :=
  [ Tag (py "h1") ∅ [Text (py "A")];
    Tag (py "h3") ∅ [Text (py "B")];
    Tag (py "h2") ∅ [Text (py "C")];
    Tag (py "h3") ∅ [Text (py "D")];
    Tag (py "h1") ∅ [Text (py "E")];
    Tag (py "h2") ∅ [Text (py "F")] ].

(** A link to an editor-generated identifier that no tag carries. *)
Definition stale_link : list node :=
  [ Tag (py "p") ∅
      [ Text (py "see ");
        Tag A {[HREF := HASH :: ZD_ID]} [Text (py "above")] ] ].

(** A link that starts and ends with a hash. *)
Definition hash_link : element :=
  Element A {[HREF := py "#x#"]} [py "odd"].

(** ** Further specifications *)

(** The row [r] describes the heading [h] of the indexed document. *)
Definition describes (page_url : str) (h : element) (r : row) : Prop :=
  heading_level (tag h) = Some (row_level r)
  ∧ row_heading r = get_text (py " ") h
  ∧ attrs h !! ID = Some (row_id r)
  ∧ row_id r ≠ []
  ∧ row_anchor r = HASH :: row_id r
  ∧ row_link r = (if nonempty page_url
                  then page_url ++ HASH :: row_id r
                  else HASH :: row_id r).

(** The attributes [a'] of a tag after the indexing pass against the
    attributes [a] before it: only [id] may differ, and only on a heading,
    which then carries a non-empty identifier. *)
Definition id_frame (flag : bool) (name : str) (a a' : gmap str str) : Prop :=
  (∀ k, k ≠ ID → a' !! k = a !! k)
  ∧ (name ∉ HEADING_TAGS → a' = a)
  ∧ (name ∈ HEADING_TAGS →
     ∃ hid, a' !! ID = Some hid ∧ hid ≠ []
            ∧ (flag = true → ¬ editor_generated hid)).

(** What the indexer does to the identifier of one tag: a heading whose
    identifier is not empty and is not to be replaced keeps it. *)
Definition keeps_id (flag : bool) (el el' : element) : Prop :=
  tag el ∈ HEADING_TAGS →
  current_id (attrs el) ≠ [] →
  should_replace flag (current_id (attrs el)) = false →
  attrs el' !! ID = Some (current_id (attrs el)).

(** Where a broken link record comes from: an [a] tag [el] of the
    document with that [href] and that text; the [href] has a hash, and
    [rewrite_anchor_href] leaves it alone under the map [m]. *)
Definition reports (m : gmap str str) (el : element) (b : broken_link) : Prop :=
  tag el = A
  ∧ attrs el !! HREF = Some (bl_href b)
  ∧ bl_text b = get_text (py " ") el
  ∧ HASH ∈ bl_href b
  ∧ rewrite_anchor_href (bl_href b) m = Some (bl_href b, false).

(** No two hyphens in a row. *)
Fixpoint no_double (s : str) : Prop :=
  match s with
  | c :: s' =>
      match s' with
      | d :: _ => ¬ (c = HYPHEN ∧ d = HYPHEN) ∧ no_double s'
      | [] => True
      end
  | [] => True
  end.

(** Successive calls of [unique_id], one for each base, on the set of used
    identifiers that the calls before have left: the tokens, in the order
    of the calls, and the final set. *)
Fixpoint allocate_all (bases : list str) (used : gset str)
    : list str * gset str :=
  match bases with
  | [] => ([], used)
  | base :: bases' =>
      let '(token, used1) := unique_id base used in
      let '(tokens, used2) := allocate_all bases' used1 in
      (token :: tokens, used2)
  end.

(** A page with a comment, a script, wrappers, a no-break space and
    attributes of the editor. *)
Definition raw_page : list (html str) :=
  [ HComment (py " exported ");
    HTag (py "script") ∅ [HText (py "var x;")];
    HTag ZD_HTML_BLOCK ∅
      [ HTag (py "h1") {[ID := ZD_ID; py "class" := py "big"]}
          [ HTag SPAN {[py "style" := py "color:red"]}
              [HText [71; 111; NBSP; 33]] ];
        HTag A {[HREF := py "#x"; py "target" := py "_blank"]}
          [HText (py "x")] ] ].

(** The level of a heading tag: its place in [HEADING_TAGS], from 1. *)
Definition tag_level (name : str) : nat :=
  match list_find (λ t, t = name) HEADING_TAGS with
  | Some (i, _) => S i
  | None => 0
  end.

(** The headings of a document, in document order: level and title. *)
Definition headings (els : list element) : list (nat * str) :=
  (λ el, (tag_level (tag el), get_text (py " ") el))
    <$> filter (λ el, tag el ∈ HEADING_TAGS) els.

(** The title of the heading that is open at level [i] after the headings
    [before] (the last one first): that of the last heading of level [i],
    unless a heading of a lower level has come after it. *)
Fixpoint open_at (i : nat) (before : list (nat * str)) : option str :=
  match before with
  | [] => None
  | (l, t) :: rest =>
      if (l =? i)%nat then Some t
      else if (l <? i)%nat then None
      else open_at i rest
  end.

(** The path of a heading of level [lvl] that comes after the headings
    [before]: the titles of the headings that are open at the levels
    below [lvl], in increasing level order, and its own title last. *)
Definition path_of (before : list (nat * str)) (lvl : nat) (title : str)
    : str :=
  join (py " > ")
    (omap (λ i, open_at i before) (seq 1 (lvl - 1)) ++ [title]).

(** The paths of the headings [hs] that come after the headings
    [before]. *)
Fixpoint paths_from (before hs : list (nat * str)) : list str :=
  match hs with
  | [] => []
  | (lvl, title) :: hs' =>
      path_of before lvl title :: paths_from ((lvl, title) :: before) hs'
  end.

(** * Properties *)

(** ** Characters and strings *)

(** Replace the literals of the goal by their code points. *)
Ltac literals :=
  repeat match goal with
         | |- context [py ?s] =>
             let v := eval vm_compute in (py s) in change (py s) with v
         end.

Ltac chars :=
  unfold slug_char, not_alnum, is_upper_alnum, is_digit, is_upper, is_lower,
    isspace, in_range, HYPHEN, UNDERSCORE, SPACE, NBSP, HASH in *;
  repeat (progress rewrite ?orb_true_iff, ?andb_true_iff, ?negb_true_iff,
    ?orb_false_iff, ?andb_false_iff, ?negb_false_iff, ?N.leb_le, ?N.leb_gt,
    ?N.eqb_eq, ?N.eqb_neq in * );
  try lia.

Lemma slug_char_not_upper c : slug_char c = true → is_upper c = false.
Proof. chars. Qed.

Lemma slug_char_not_space c : slug_char c = true → isspace c = false.
Proof. chars. Qed.

Lemma slug_char_not_underscore c : slug_char c = true → c ≠ UNDERSCORE.
Proof. chars. Qed.

Lemma nonempty_true (s : str) : nonempty s = true ↔ s ≠ [].
Proof. by destruct s. Qed.

Lemma nonempty_false (s : str) : nonempty s = false ↔ s = [].
Proof. by destruct s. Qed.

Lemma lstrip_split p s :
  ∃ pre, s = pre ++ lstrip p s ∧ Forall (λ c, p c = true) pre.
Proof.
  induction s as [|c s [pre [IH1 IH2]]]; simpl.
  - by exists [].
  - destruct (p c) eqn:E.
    + exists (c :: pre). split; [simpl; congruence | by constructor].
    + by exists [].
Qed.

Lemma lstrip_head p s c : head (lstrip p s) = Some c → p c = false.
Proof.
  induction s as [|a s IH]; simpl; [done|].
  destruct (p a) eqn:E; [done|]. simpl. congruence.
Qed.

Lemma lstrip_id p s :
  (∀ c, head s = Some c → p c = false) → lstrip p s = s.
Proof. destruct s as [|a s]; simpl; [done|]. intros H. by rewrite (H a). Qed.

Lemma Forall_lstrip (P : N → Prop) p s : Forall P s → Forall P (lstrip p s).
Proof.
  destruct (lstrip_split p s) as [pre [E _]]. rewrite E at 1.
  by intros [_ ?]%Forall_app.
Qed.

Lemma rstrip_split p s :
  ∃ suf, s = rstrip p s ++ suf ∧ Forall (λ c, p c = true) suf.
Proof.
  unfold rstrip. destruct (lstrip_split p (reverse s)) as [pre [E F]].
  exists (reverse pre). split; [|by apply Forall_reverse].
  by rewrite <- reverse_app, <- E, reverse_involutive.
Qed.

Lemma rstrip_last p s c : last (rstrip p s) = Some c → p c = false.
Proof. unfold rstrip. rewrite last_reverse. apply lstrip_head. Qed.

Lemma Forall_rstrip (P : N → Prop) p s : Forall P s → Forall P (rstrip p s).
Proof.
  intros H. unfold rstrip. by apply Forall_reverse, Forall_lstrip, Forall_reverse.
Qed.

Lemma Forall_strip (P : N → Prop) p s : Forall P s → Forall P (strip p s).
Proof. intros H. by apply Forall_rstrip, Forall_lstrip. Qed.

Lemma strip_head p s c : head (strip p s) = Some c → p c = false.
Proof.
  unfold strip. destruct (rstrip_split p (lstrip p s)) as [suf [E _]].
  intros H. apply (lstrip_head p s). rewrite E.
  destruct (rstrip p (lstrip p s)); [done|]. exact H.
Qed.

Lemma strip_last p s c : last (strip p s) = Some c → p c = false.
Proof. apply rstrip_last. Qed.

(** Stripping leaves a string alone when none of its characters goes. *)
Lemma strip_id p s : Forall (λ c, p c = false) s → strip p s = s.
Proof.
  intros H. unfold strip, rstrip.
  rewrite (lstrip_id p s).
  - rewrite lstrip_id; [apply reverse_involutive|].
    intros c Hc. rewrite head_reverse in Hc.
    apply last_Some in Hc as [l' ->].
    apply Forall_app in H as [_ H]. by inversion H.
  - intros c Hc. destruct s; simplify_eq/=. by inversion H.
Qed.

Lemma Forall_sub_runs b s : Forall (λ c, slug_char c = true) (sub_runs b s).
Proof.
  revert b. induction s as [|c s IH]; intros b; simpl; [constructor|].
  destruct (not_alnum c) eqn:E.
  - destruct b; [apply IH|]. constructor; [done | apply IH].
  - constructor; [|apply IH]. revert E. chars.
Qed.

Lemma Forall_sub_hyphens (P : N → Prop) s :
  Forall P s → Forall P (sub_hyphens s).
Proof.
  induction s as [|c s IH]; [done|].
  intros H. inversion H as [|? ? Hc Hs]; subst.
  cbn [sub_hyphens]. destruct s as [|d s']; [by constructor|].
  destruct ((c =? HYPHEN) && (d =? HYPHEN)).
  - by apply IH.
  - constructor; [done | by apply IH].
Qed.

Lemma digits_inj d1 d2 : digits d1 = digits d2 → d1 = d2.
Proof.
  revert d2. induction d1; intros []; simpl; intros H;
    try discriminate; try done; f_equal; apply IHd1; congruence.
Qed.

Lemma Forall_digits d : Forall (λ c, is_digit c = true) (digits d).
Proof. induction d; simpl; constructor; done. Qed.

Lemma str_of_int_inj i j : str_of_int i = str_of_int j → i = j.
Proof. intros H. by apply Unsigned.to_uint_inj, digits_inj. Qed.

Lemma suffixed_inj base i j : suffixed base i = suffixed base j → i = j.
Proof.
  unfold suffixed. intros H. apply app_inv_head in H.
  apply str_of_int_inj. congruence.
Qed.

Lemma Forall_suffixed (P : N → Prop) base i :
  Forall P base → P HYPHEN → (∀ c, is_digit c = true → P c) →
  Forall P (suffixed base i).
Proof.
  intros Hb Hh Hd. apply Forall_app. split; [done|].
  constructor; [done|]. eapply Forall_impl; [apply Forall_digits | done].
Qed.

(** ** Identifier allocator *)

(** The loop stops at the first free suffix at or after [i]. *)
Lemma probe_below fuel base used i j :
  (i ≤ j)%nat → (j < probe fuel base used i)%nat → suffixed base j ∈ used.
Proof.
  revert i. induction fuel as [|fuel IH]; intros i Hij Hj; simpl in Hj; [lia|].
  destruct (decide (suffixed base i ∈ used)) as [Hin|]; [|lia].
  destruct (decide (i = j)) as [->|]; [done|].
  apply (IH (S i)); [lia | done].
Qed.

Lemma probe_ge fuel base used i : (i ≤ probe fuel base used i)%nat.
Proof.
  revert i. induction fuel as [|fuel IH]; intros i; simpl; [lia|].
  destruct (decide _); [|lia]. specialize (IH (S i)). lia.
Qed.

(** The loop ends: the suffixes tried are pairwise distinct members of
    [used], so there are at most [size used] of them. *)
Lemma probe_free_gen (fuel : nat) (base : str) (used X : gset str) (i : nat) :
  X ⊆ used →
  (∀ j, (i ≤ j)%nat → suffixed base j ∈ used → suffixed base j ∈ X) →
  (size X < fuel)%nat →
  suffixed base (probe fuel base used i) ∉ used.
Proof.
  revert X i. induction fuel as [|fuel IH]; intros X i HX Hall Hsz; [lia|].
  simpl. destruct (decide (suffixed base i ∈ used)) as [Hin|]; [|done].
  apply (IH (X ∖ {[suffixed base i]})).
  - intros x [Hx _]%elem_of_difference. by apply HX.
  - intros j Hj Hju. apply elem_of_difference. split; [apply Hall; [lia|done]|].
    intros ->%elem_of_singleton%suffixed_inj. lia.
  - assert (suffixed base i ∈ X) as HiX by (apply Hall; [lia|done]).
    rewrite size_difference by set_solver. rewrite size_singleton.
    assert (size X ≠ 0)%nat; [|lia].
    intros ->%size_empty_iff%leibniz_equiv_iff. set_solver.
Qed.

Lemma probe_free (base : str) (used : gset str) (i : nat) :
  suffixed base (probe (S (size used)) base used i) ∉ used.
Proof. apply (probe_free_gen _ _ _ used); [done | done | lia]. Qed.

Lemma unique_id_fresh (base : str) (used : gset str) :
  fst (unique_id base used) ∉ used.
Proof.
  unfold unique_id. destruct (decide (base ∉ used)); [done|].
  apply probe_free.
Qed.

Lemma unique_id_used (base : str) (used : gset str) :
  snd (unique_id base used) = {[fst (unique_id base used)]} ∪ used.
Proof. unfold unique_id. by destruct (decide (base ∉ used)). Qed.

(** The token is the base, or the base with a hyphen and decimal digits. *)
Lemma unique_id_shape base used :
  fst (unique_id base used) = base
  ∨ ∃ i, fst (unique_id base used) = suffixed base i.
Proof.
  unfold unique_id. destruct (decide _); simpl; [by left | right; eauto].
Qed.

(** C4: [unique_id(base, used)] returns [base] itself when [base] is not in
    [used]; otherwise it returns [base-i] for the smallest [i >= 2] such
    that [base-i] is not in [used].  The returned token is not in [used]
    at call time and is a member of [used] after the call. *)
Theorem unique_id_spec (base : str) (used : gset str) :
  (base ∉ used → fst (unique_id base used) = base)
  ∧ (base ∈ used →
     ∃ i, (2 ≤ i)%nat
          ∧ fst (unique_id base used) = suffixed base i
          ∧ (suffixed base i ∉ used)
          ∧ ∀ j, (2 ≤ j < i)%nat → suffixed base j ∈ used)
  ∧ (fst (unique_id base used) ∉ used)
  ∧ fst (unique_id base used) ∈ snd (unique_id base used)
  ∧ snd (unique_id base used) = {[fst (unique_id base used)]} ∪ used.
Proof.
  unfold unique_id. destruct (decide (base ∉ used)) as [Hfree|Hin]; simpl.
  - split_and!; [done | done | done | set_solver | done].
  - apply dec_stable in Hin.
    split_and!; [done | | apply probe_free | set_solver | done].
    intros _. exists (probe (S (size used)) base used 2).
    split_and!; [apply probe_ge | done | apply probe_free |].
    intros j [Hj1 Hj2]. by apply (probe_below (S (size used)) base used 2).
Qed.

(** ** Heading classifier *)

Lemma forallb_upper_alnum rest :
  forallb is_upper_alnum rest = true
  ↔ Forall (λ c, 48 ≤ c ≤ 57 ∨ 65 ≤ c ≤ 90) rest.
Proof.
  induction rest as [|c rest IH]; simpl.
  - split; [constructor | done].
  - rewrite andb_true_iff, Forall_cons, IH.
    assert (is_upper_alnum c = true ↔ 48 ≤ c ≤ 57 ∨ 65 ≤ c ≤ 90) as ->; [|done].
    chars.
Qed.

(** The regular expression matches exactly the editor-generated pattern. *)
Lemma is_zendesk_generated_id_spec s :
  is_zendesk_generated_id s = true ↔ editor_generated s.
Proof.
  unfold editor_generated. split.
  - destruct s as [|h [|u rest]]; cbn [is_zendesk_generated_id]; try done.
    rewrite !andb_true_iff, forallb_upper_alnum.
    intros [[[Hh Hu] Hlen] Hall].
    apply N.eqb_eq in Hh, Hu. apply Nat.leb_le in Hlen. subst.
    by exists rest.
  - intros (rest & -> & Hlen & Hall).
    change (py "h_" ++ rest) with (104 :: UNDERSCORE :: rest).
    cbn [is_zendesk_generated_id]. rewrite !N.eqb_refl.
    rewrite andb_true_iff, forallb_upper_alnum.
    split; [by apply Nat.leb_le | done].
Qed.

Lemma zendesk_has_underscore s :
  is_zendesk_generated_id s = true → UNDERSCORE ∈ s.
Proof.
  intros (rest & -> & _)%is_zendesk_generated_id_spec.
  literals. apply list_elem_of_further, list_elem_of_here.
Qed.

Lemma zendesk_nonempty s : is_zendesk_generated_id s = true → s ≠ [].
Proof. by destruct s. Qed.

Lemma zendesk_no_hash s : is_zendesk_generated_id s = true → HASH ∉ s.
Proof.
  intros (rest & -> & _ & Hall)%is_zendesk_generated_id_spec.
  literals. cbn. rewrite !not_elem_of_cons. split_and!; [done | done |].
  intros Hin. rewrite Forall_forall in Hall. specialize (Hall _ Hin).
  unfold HASH in Hall. lia.
Qed.

(** ** Slug generator *)

Section Slug.
Context (lower : str → str).

Lemma slugify_normalized text :
  slugify lower text =
    if nonempty (normalized lower text) then normalized lower text
    else py "section".
Proof. reflexivity. Qed.

Lemma Forall_normalized text :
  Forall (λ c, slug_char c = true) (normalized lower text).
Proof. apply Forall_strip, Forall_sub_hyphens, Forall_sub_runs. Qed.

Lemma Forall_slugify text :
  Forall (λ c, slug_char c = true) (slugify lower text).
Proof.
  rewrite slugify_normalized. destruct (nonempty _).
  - apply Forall_normalized.
  - by repeat constructor.
Qed.

Lemma slugify_nonempty text : slugify lower text ≠ [].
Proof.
  rewrite slugify_normalized.
  destruct (nonempty _) eqn:E; [by apply nonempty_true | done].
Qed.
End Slug.

(** C6: [slugify] is total and returns a non-empty token made of lowercase
    letters, digits and hyphens only (so no uppercase letter and no space),
    with no leading and no trailing hyphen; when the normalised text is
    empty the token is the fallback [section], as for the empty string, a
    string of white space and a string without letters or digits. *)
Theorem slugify_total (lower : str → str) (text : str) :
  slugify lower text ≠ []
  ∧ Forall (λ c, slug_char c = true) (slugify lower text)
  ∧ (∀ c, c ∈ slugify lower text →
          is_upper c = false ∧ c ≠ SPACE ∧ isspace c = false)
  ∧ head (slugify lower text) ≠ Some HYPHEN
  ∧ last (slugify lower text) ≠ Some HYPHEN
  ∧ (normalized lower text = [] → slugify lower text = py "section")
  ∧ (normalized lower text ≠ [] → slugify lower text = normalized lower text)
  ∧ slugify ascii_lower [] = py "section"
  ∧ slugify ascii_lower (py "    ") = py "section"
  ∧ slugify ascii_lower (py "?! -- ...") = py "section".
Proof.
  split_and!; try reflexivity.
  - apply slugify_nonempty.
  - apply Forall_slugify.
  - intros c Hc.
    pose proof (Forall_slugify lower text) as H.
    rewrite Forall_forall in H. specialize (H c Hc).
    split_and!; [by apply slug_char_not_upper | | by apply slug_char_not_space].
    revert H. chars.
  - rewrite slugify_normalized. destruct (nonempty _); [|done].
    intros H%strip_head. done.
  - rewrite slugify_normalized. destruct (nonempty _); [|done].
    intros H%strip_last. done.
  - intros E. by rewrite slugify_normalized, E.
  - intros E%nonempty_true. by rewrite slugify_normalized, E.
Qed.

(** ** Loops over the tags of the document *)

Lemma node_ind' (P : node → Prop) :
  (∀ s, P (Text s)) →
  (∀ s, P (Other s)) →
  (∀ name a kids, Forall P kids → P (Tag name a kids)) →
  ∀ n, P n.
Proof.
  intros HText HOther HTag. fix IH 1.
  intros [s|s|name a kids]; [apply HText | apply HOther |].
  apply HTag. induction kids as [|k kids IHkids]; constructor.
  - apply IH.
  - apply IHkids.
Qed.

Section VisitFacts.
Context {S : Type} (body : S → element → option (S * gmap str str)).

Lemma visit_Tag s name a kids :
  visit body s (Tag name a kids) =
    '(s1, a') ← body s (Element name a (flat_map node_strings kids));
    '(s2, kids') ← visit_all body s1 kids;
    Some (s2, Tag name a' kids').
Proof.
  reflexivity.
Qed.

Lemma each_app s els1 els2 :
  each body s (els1 ++ els2) =
    '(s1, out1) ← each body s els1;
    '(s2, out2) ← each body s1 els2;
    Some (s2, out1 ++ out2).
Proof.
  revert s. induction els1 as [|e els1 IH]; intros s; cbn.
  - by destruct (each body s els2) as [[??]|].
  - destruct (body s e) as [[s1 a']|]; [|done]. cbn. rewrite IH.
    destruct (each body s1 els1) as [[s2 out1]|]; [|done]. cbn.
    by destruct (each body s2 els2) as [[??]|].
Qed.

Lemma visit_all_agrees_Forall ns :
  Forall (visit_agrees body) ns → visit_all_agrees body ns.
Proof.
  induction 1 as [|n ns Hn _ IH]; intros s; [done|].
  cbn [visit_all]. unfold find_all. cbn [flat_map]. rewrite each_app.
  specialize (Hn s). destruct (visit body s n) as [[s1 n']|]; cbn.
  - destruct Hn as [Hstr ->]. cbn.
    specialize (IH s1). unfold find_all in IH.
    destruct (visit_all body s1 ns) as [[s2 ns']|]; cbn.
    + destruct IH as [Hstrs ->]. cbn. by rewrite Hstr, Hstrs.
    + by rewrite IH.
  - by rewrite Hn.
Qed.

Lemma visit_agrees_all n : visit_agrees body n.
Proof.
  induction n as [t|t|name a kids IH] using node_ind'; intros s;
    [done | done |].
  apply visit_all_agrees_Forall in IH.
  rewrite visit_Tag. cbn [node_elements each].
  destruct (body s _) as [[s1 a']|]; [|done]. cbn.
  specialize (IH s1). unfold find_all in IH.
  destruct (visit_all body s1 kids) as [[s2 kids']|]; cbn.
  - destruct IH as [Hstr ->]. cbn. by rewrite Hstr.
  - by rewrite IH.
Qed.

Lemma visit_all_each s soup :
  (λ '(s', soup'), (s', find_all soup')) <$> visit_all body s soup
  = each body s (find_all soup).
Proof.
  pose proof (visit_all_agrees_Forall soup) as H.
  specialize (H (Forall_true _ _ visit_agrees_all) s).
  destruct (visit_all body s soup) as [[s' soup']|]; cbn; [|done].
  by destruct H as [_ ->].
Qed.

Lemma each_is_Some s els :
  (∀ s e, is_Some (body s e)) → is_Some (each body s els).
Proof.
  intros Hbody. revert s. induction els as [|e els IH]; intros s; cbn; [done|].
  destruct (Hbody s e) as [[s1 a'] ->]. cbn.
  destruct (IH s1) as [[s2 out] ->]. done.
Qed.

(** A loop whose body always returns goes through every document. *)
Lemma visit_all_is_Some s soup :
  (∀ s e, is_Some (body s e)) → is_Some (visit_all body s soup).
Proof.
  intros Hbody. pose proof (visit_all_each s soup) as H.
  destruct (each_is_Some s (find_all soup) Hbody) as [r Hr].
  rewrite Hr in H. destruct (visit_all body s soup); [done|discriminate].
Qed.

(** What the body guarantees of one tag holds of every tag. *)
Lemma each_Forall2 (R : element → element → Prop) s els s' out :
  (∀ s e s' a', body s e = Some (s', a') → R e (set_attrs a' e)) →
  each body s els = Some (s', out) → Forall2 R els out.
Proof.
  intros Hbody. revert s out.
  induction els as [|e els IH]; intros s out; cbn.
  - intros [= _ <-]. constructor.
  - destruct (body s e) as [[s1 a']|] eqn:E; [|done]. cbn.
    destruct (each body s1 els) as [[s2 out']|] eqn:E'; [|done]. cbn.
    intros [= -> <-]. constructor; [by eapply Hbody | by eapply IH].
Qed.
End VisitFacts.

(** The title of a heading with a ruby annotation: the string that the
    [rt] tag holds is not part of it. *)
Example ruby_title :
  get_text (py " ")
    <$> head (find_all
                [ Tag (py "h2") ∅
                    [ Text (py "Kanji ");
                      Tag (py "rt") ∅ [Other (py "kana")];
                      Text (py " text") ] ])
  = Some (py "Kanji text").
Proof. vm_compute. reflexivity. Qed.

(** ** Reference rewriter *)

Lemma contains_spec c s : contains c s = true ↔ c ∈ s.
Proof.
  unfold contains. induction s as [|x s IH]; simpl.
  - split; [done | by intros ?%elem_of_nil].
  - rewrite orb_true_iff, IH, elem_of_cons, N.eqb_eq. naive_solver.
Qed.

Lemma split_last_None sep s : split_last sep s = None ↔ sep ∉ s.
Proof.
  induction s as [|c s IH]; simpl.
  - split; [intros _ ?%elem_of_nil; done | done].
  - rewrite not_elem_of_cons, <- IH.
    destruct (split_last sep s) as [[b f]|]; [naive_solver|].
    destruct (N.eqb_spec c sep); naive_solver.
Qed.

Lemma split_last_Some sep s b f :
  split_last sep s = Some (b, f) ↔ s = b ++ sep :: f ∧ sep ∉ f.
Proof.
  split.
  - revert b. induction s as [|c s IH]; intros b; simpl; [done|].
    destruct (split_last sep s) as [[b' f']|] eqn:E.
    + intros [= <- <-]. destruct (IH b' eq_refl) as [-> ?]. done.
    + destruct (N.eqb_spec c sep) as [->|]; [|done].
      intros [= <- <-]. by apply split_last_None in E.
  - intros [-> Hf]. induction b as [|c b IH]; simpl.
    + apply split_last_None in Hf. by rewrite Hf, N.eqb_refl.
    + by rewrite IH.
Qed.

Lemma split_last_contains sep s :
  contains sep s = true ↔ is_Some (split_last sep s).
Proof.
  rewrite contains_spec. destruct (split_last sep s) as [[b f]|] eqn:E.
  - apply split_last_Some in E as [-> _]. split; [done|].
    intros _. apply elem_of_app. right. apply list_elem_of_here.
  - apply split_last_None in E. split; [done | by intros [? ?]].
Qed.

(** [rewrite_anchor_href] never raises; it returns the spliced reference
    when the text after the last hash is a key of the map. *)
Lemma rewrite_anchor_href_eq href m :
  rewrite_anchor_href href m =
    Some (match split_last HASH href with
          | Some (base, frag) =>
              match m !! frag with
              | Some new =>
                  if nonempty frag then (base ++ HASH :: new, true)
                  else (href, false)
              | None => (href, false)
              end
          | None => (href, false)
          end).
Proof.
  unfold rewrite_anchor_href, rsplit1.
  pose proof (split_last_contains HASH href) as Hc.
  destruct (split_last HASH href) as [[base frag]|].
  - assert (contains HASH href = true) as Hin by (by apply Hc).
    assert (nonempty href = true) as -> by (by destruct href).
    rewrite Hin. cbn. destruct frag as [|c frag]; cbn; [by destruct (m !! [])|].
    case_bool_decide as Hdom.
    + apply elem_of_dom in Hdom as [new ->]. cbn. by destruct base.
    + apply not_elem_of_dom in Hdom. by rewrite Hdom.
  - assert (contains HASH href = false) as ->.
    { destruct (contains HASH href); [|done].
      by destruct (proj1 Hc eq_refl). }
    by rewrite orb_true_r.
Qed.

Lemma track_zendesk_eq ids href text b :
  track_zendesk ids href text b =
    Some (match split_last HASH href with
          | Some (_, frag) =>
              if nonempty frag && negb (bool_decide (frag ∈ ids))
                 && is_zendesk_generated_id frag
              then b ++ [BrokenLink href text]
              else b
          | None => b
          end).
Proof.
  unfold track_zendesk, rsplit1.
  pose proof (split_last_contains HASH href) as Hc.
  destruct (split_last HASH href) as [[base frag]|].
  - by assert (contains HASH href = true) as -> by (by apply Hc).
  - destruct (contains HASH href); [|done].
    by destruct (proj1 Hc eq_refl).
Qed.

(** The body of the loop over the links, without the option: either the
    link is rewritten and counted, or it is left as it is and checked. *)
Lemma rewrite_link_eq m ids st a :
  rewrite_link m ids st a =
    Some (match retargeted m (attrs a) with
          | Some new_href =>
              (RewriterState (S (changed_count st)) (broken st),
               <[HREF := new_href]> (attrs a))
          | None =>
              (RewriterState (changed_count st) (reported ids a (broken st)),
               attrs a)
          end).
Proof.
  unfold rewrite_link, retargeted, reported.
  destruct (attrs a !! HREF) as [href|] eqn:Ea; cbn; [|by destruct st].
  destruct (nonempty href) eqn:En; cbn [negb].
  - rewrite rewrite_anchor_href_eq, track_zendesk_eq.
    destruct (split_last HASH href) as [[base frag]|]; cbn; [|done].
    destruct (m !! frag) as [new|]; cbn; [|done].
    by destruct (nonempty frag).
  - apply nonempty_false in En as ->. by destruct st.
Qed.

Lemma rewrite_element_is_Some m ids st el :
  is_Some (rewrite_element m ids st el).
Proof.
  unfold rewrite_element. case_bool_decide; [|done].
  by rewrite rewrite_link_eq.
Qed.

Lemma retargeted_Some m a new_href :
  retargeted m a = Some new_href →
  ∃ href base frag new,
    a !! HREF = Some href ∧ split_last HASH href = Some (base, frag)
    ∧ frag ≠ [] ∧ m !! frag = Some new ∧ new_href = base ++ HASH :: new.
Proof.
  unfold retargeted. destruct (a !! HREF) as [href|] eqn:Ea; cbn; [|done].
  destruct (split_last HASH href) as [[base frag]|] eqn:Es; cbn; [|done].
  destruct (m !! frag) as [new|] eqn:E; cbn; [|done].
  destruct (nonempty frag) eqn:En; [|done]. apply nonempty_true in En.
  intros [= <-]. by exists href, base, frag, new.
Qed.

Lemma rewrite_element_frame m ids st el st' a' :
  rewrite_element m ids st el = Some (st', a') →
  attrs_frame m (tag el) (attrs el) a'.
Proof.
  unfold rewrite_element. case_bool_decide as Ha.
  - rewrite rewrite_link_eq.
    destruct (retargeted m (attrs el)) as [new_href|] eqn:E.
    + apply retargeted_Some in E as (href & base & frag & new & ? & ? & ? & ? & ?).
      intros [= _ <-]. split.
      * intros k Hk. by rewrite lookup_insert_ne.
      * intros _. split; [done|]. exists href, base, frag.
        split_and!; [done | done |]. apply elem_of_dom. eauto.
    + intros [= _ <-]. by split.
  - intros [= _ <-]. by split.
Qed.

(** A loop that relates the attributes of every tag relates the trees. *)
Lemma visit_same_shape {S} (body : S → element → option (S * gmap str str))
    (R : str → gmap str str → gmap str str → Prop) :
  (∀ s el s' a', body s el = Some (s', a') → R (tag el) (attrs el) a') →
  ∀ n s s' n', visit body s n = Some (s', n') → same_shape R n n'.
Proof.
  intros Hbody. induction n as [t|t|name a kids IH] using node_ind'.
  - intros s s' n' [= _ <-]. constructor.
  - intros s s' n' [= _ <-]. constructor.
  - intros s s' n'. rewrite visit_Tag.
    destruct (body s _) as [[s1 a']|] eqn:E; cbn; [|done].
    destruct (visit_all body s1 kids) as [[s2 kids']|] eqn:E'; cbn; [|done].
    intros [= _ <-]. constructor; [by apply Hbody in E|].
    clear E. revert s1 s2 kids' E'.
    induction IH as [|k kids Hk _ IHkids]; intros s1 s2 kids'; cbn.
    + intros [= _ <-]. constructor.
    + destruct (visit body s1 k) as [[s3 k']|] eqn:Ek; cbn; [|done].
      destruct (visit_all body s3 kids) as [[s4 kids'']|] eqn:Eks; cbn; [|done].
      intros [= _ <-]. constructor; [by eapply Hk | by eapply IHkids].
Qed.

Lemma visit_all_same_shape {S} (body : S → element → option (S * gmap str str))
    (R : str → gmap str str → gmap str str → Prop) :
  (∀ s el s' a', body s el = Some (s', a') → R (tag el) (attrs el) a') →
  ∀ ns s s' ns', visit_all body s ns = Some (s', ns') →
                 Forall2 (same_shape R) ns ns'.
Proof.
  intros Hbody. induction ns as [|n ns IH]; intros s s' ns'; cbn.
  - intros [= _ <-]. constructor.
  - destruct (visit body s n) as [[s1 n']|] eqn:En; cbn; [|done].
    destruct (visit_all body s1 ns) as [[s2 ns'']|] eqn:Ens; cbn; [|done].
    intros [= _ <-]. constructor; [|by eapply IH].
    by eapply visit_same_shape.
Qed.

Lemma ID_neq_HREF : ID ≠ HREF.
Proof. intros H. by vm_compute in H. Qed.

Lemma rewrite_element_id m ids st el st' a' :
  rewrite_element m ids st el = Some (st', a') →
  id_value (set_attrs a' el) = id_value el.
Proof.
  intros [Hk _]%rewrite_element_frame. unfold id_value. cbn.
  by rewrite (Hk ID ID_neq_HREF).
Qed.

Lemma Forall2_ids_of els out :
  Forall2 (λ el el', id_value el' = id_value el) els out →
  ids_of out = ids_of els.
Proof.
  unfold ids_of. induction 1 as [|el el' els out H _ IH]; cbn; [done|].
  by rewrite H, IH.
Qed.

(** A pure-fragment link to an editor-generated identifier that is neither
    renamed nor present passes both checks: it is recorded twice. *)
Lemma rewrite_link_twice m ids st a frag :
  attrs a !! HREF = Some (HASH :: frag) →
  is_zendesk_generated_id frag = true →
  frag ∉ ids → m !! frag = None →
  rewrite_link m ids st a =
    Some (RewriterState (changed_count st)
            (broken st
             ++ [BrokenLink (HASH :: frag) (get_text (py " ") a);
                 BrokenLink (HASH :: frag) (get_text (py " ") a)]),
          attrs a).
Proof.
  intros Ha Hz Hids Hm. rewrite rewrite_link_eq.
  assert (split_last HASH (HASH :: frag) = Some ([], frag)) as Hs.
  { apply split_last_Some. split; [done | by apply zendesk_no_hash]. }
  unfold retargeted, reported, track_internal. rewrite Ha. cbn -[split_last].
  rewrite Hs. cbn. rewrite Hm. cbn.
  rewrite drop_0, Hz, bool_decide_eq_false_2 by done.
  destruct frag; [done|]. cbn. by rewrite <- app_assoc.
Qed.

(** C2, at the input where the code departs from it: one link to an
    editor-generated identifier that no tag carries and that the map does
    not rename.  Both checks fire, and the link is reported twice. *)
Theorem stale_link_reported_twice :
  (λ r, (r.1.2, r.2)) <$> rewrite_cross_references stale_link ∅
  = Some (0%nat, [BrokenLink (HASH :: ZD_ID) (py "above");
                  BrokenLink (HASH :: ZD_ID) (py "above")]).
Proof. vm_compute. reflexivity. Qed.

(** C8 fails as stated: the text after the last hash of [#x#] is empty,
    and the link is recorded as broken. *)
Lemma hash_link_reported :
  split_last HASH (py "#x#") = Some (py "#x", [])
  ∧ rewrite_link ∅ ∅ (RewriterState 0 []) hash_link
    = Some (RewriterState 0 [BrokenLink (py "#x#") (py "odd")],
            attrs hash_link).
Proof. split; vm_compute; reflexivity. Qed.

(** C8, amended: the rewriter never raises.  A link whose [href] has no
    hash, or nothing after its last hash, keeps its [href] and is not
    counted as changed.  No broken link is recorded for it when it has no
    hash; when it ends with a hash, one record is appended if the [href]
    also begins with a hash and the text after that first hash is
    non-empty and not an identifier of the document, and none otherwise. *)
Theorem rewrite_link_no_fragment (m : gmap str str) (ids : gset str)
    (st : rewriter_state) (a : element) (href : str) :
  attrs a !! HREF = Some href →
  HASH ∉ href ∨ (∃ base, href = base ++ [HASH]) →
  (∀ h, is_Some (rewrite_anchor_href h m))
  ∧ (∀ st0 el, is_Some (rewrite_element m ids st0 el))
  ∧ (∀ soup, is_Some (rewrite_cross_references soup m))
  ∧ ∃ st',
      rewrite_link m ids st a = Some (st', attrs a)
      ∧ changed_count st' = changed_count st
      ∧ (HASH ∉ href → broken st' = broken st)
      ∧ (startswith HASH href = false ∨ drop 1 href = [] ∨ drop 1 href ∈ ids →
         broken st' = broken st)
      ∧ (startswith HASH href = true → drop 1 href ≠ [] → drop 1 href ∉ ids →
         broken st' = broken st ++ [BrokenLink href (get_text (py " ") a)]).
Proof.
  intros Ha Hhref. split_and!.
  - intros h. by rewrite rewrite_anchor_href_eq.
  - intros st0 el. apply rewrite_element_is_Some.
  - intros soup. unfold rewrite_cross_references.
    destruct (visit_all_is_Some (rewrite_element m (collect_ids (find_all soup)))
                (RewriterState 0 []) soup) as [[st' soup'] ->]; [|done].
    intros st0 el. apply rewrite_element_is_Some.
  - rewrite rewrite_link_eq.
    assert (retargeted m (attrs a) = None
            ∧ reported ids a (broken st)
              = track_internal ids href (get_text (py " ") a) (broken st))
      as [-> Hrep].
    { unfold retargeted, reported. rewrite Ha. cbn.
      destruct Hhref as [Hno | [base ->]].
      - apply split_last_None in Hno. by rewrite Hno.
      - assert (split_last HASH (base ++ [HASH]) = Some (base, [])) as ->.
        { apply split_last_Some. split; [done | apply not_elem_of_nil]. }
        cbn. by destruct (m !! []). }
    eexists. split; [done|]. cbn. rewrite Hrep. unfold track_internal.
    split_and!; [done | | | ].
    + intros Hno. destruct href as [|c href]; [done|]. cbn.
      destruct (N.eqb_spec c HASH) as [->|]; [|done].
      exfalso. apply Hno, list_elem_of_here.
    + intros [-> | [-> | Hin]]; [done | by destruct (startswith _ _) |].
      rewrite (bool_decide_eq_true_2 _ Hin). cbn.
      rewrite andb_false_r. by destruct (startswith _ _).
    + intros -> Hne Hnot. apply nonempty_true in Hne. rewrite Hne.
      by rewrite (bool_decide_eq_false_2 _ Hnot).
Qed.

(** A link to a page, ending with a hash: nothing happens. *)
Lemma rewrite_link_no_fragment_witness :
  rewrite_link ∅ ∅ (RewriterState 0 [])
    (Element A {[HREF := py "guide.html#"]} [py "guide"])
  = Some (RewriterState 0 [], {[HREF := py "guide.html#"]}).
Proof.
  destruct (rewrite_link_no_fragment ∅ ∅ (RewriterState 0 [])
              (Element A {[HREF := py "guide.html#"]} [py "guide"])
              (py "guide.html#"))
    as (_ & _ & _ & st' & E & Hc & _ & Hb & _).
  - reflexivity.
  - right. exists (py "guide.html"). reflexivity.
  - rewrite E. destruct st' as [n b]. cbn in Hc, Hb.
    rewrite Hc, Hb; [reflexivity | left; reflexivity].
Defined.

(** C10: the rewriting pass returns a document of the same shape and text,
    in which every attribute of every tag other than [href] is what it
    was, and the [href] of a tag differs only where the tag is an [a]
    whose fragment is a key of the identifier map; in particular the
    identifiers of the document are unchanged. *)
Theorem rewrite_cross_references_frame (soup : list node) (m : gmap str str) :
  ∃ soup' n broken,
    rewrite_cross_references soup m = Some (soup', n, broken)
    ∧ Forall2 (same_shape (attrs_frame m)) soup soup'
    ∧ flat_map node_strings soup' = flat_map node_strings soup
    ∧ document_ids soup' = document_ids soup.
Proof.
  unfold rewrite_cross_references.
  set (ids := collect_ids (find_all soup)).
  set (st0 := RewriterState 0 []).
  pose proof (visit_all_agrees_Forall (rewrite_element m ids) soup
                (Forall_true _ _ (visit_agrees_all _)) st0) as Hagree.
  destruct (visit_all (rewrite_element m ids) st0 soup)
    as [[st' soup']|] eqn:E.
  - exists soup', (changed_count st'), (broken st'). cbn.
    split_and!; [done | | by destruct Hagree | ].
    + eapply visit_all_same_shape; [|done].
      intros ????. apply rewrite_element_frame.
    + unfold document_ids. apply Forall2_ids_of.
      eapply each_Forall2; [|exact (proj2 Hagree)].
      intros ????. apply rewrite_element_id.
  - destruct (visit_all_is_Some (rewrite_element m ids) st0 soup) as [? ?];
      [|congruence].
    intros st1 el. apply rewrite_element_is_Some.
Qed.

(** ** Path stack *)

Lemma heading_level_tags name :
  name ∈ HEADING_TAGS →
  ∃ lvl, heading_level name = Some lvl ∧ (1 ≤ lvl ≤ 6)%nat.
Proof.
  unfold HEADING_TAGS. rewrite !elem_of_cons, elem_of_nil.
  intros [->|[->|[->|[->|[->|[->|[]]]]]]]; vm_compute; eexists; (split; [done | lia]).
Qed.

(** The level of a heading tag is the digit of its name. *)
Lemma heading_level_name name lvl :
  name ∈ HEADING_TAGS → heading_level name = Some lvl →
  name = py "h" ++ str_of_int lvl.
Proof.
  unfold HEADING_TAGS. rewrite !elem_of_cons, elem_of_nil.
  intros [->|[->|[->|[->|[->|[->|[]]]]]]]; vm_compute; by intros [= <-].
Qed.

Lemma lookup_foldl_delete (stack : gmap nat (str * str)) (ks : list nat) (k : nat) :
  foldl (λ st deeper, delete deeper st) stack ks !! k
  = if decide (k ∈ ks) then None else stack !! k.
Proof.
  revert stack. induction ks as [|d ks IH]; intros stack; cbn [foldl].
  - by rewrite decide_False by apply not_elem_of_nil.
  - rewrite IH. destruct (decide (k ∈ ks)) as [Hin|Hni].
    + by rewrite decide_True by (by apply list_elem_of_further).
    + destruct (decide (k = d)) as [->|Hne].
      * rewrite lookup_delete_eq. by rewrite decide_True by apply list_elem_of_here.
      * rewrite lookup_delete_ne by done.
        rewrite decide_False; [done|]. by intros [?|?]%elem_of_cons.
Qed.

(** After [pop_deeper] the levels from [lvl + 1] to 6 are gone and every
    other level is what it was. *)
Lemma lookup_pop_deeper lvl (stack : gmap nat (str * str)) k :
  pop_deeper lvl stack !! k
  = if decide (lvl < k < 7)%nat then None else stack !! k.
Proof.
  unfold pop_deeper. rewrite lookup_foldl_delete.
  destruct (decide (lvl < k < 7)%nat) as [H|H].
  - rewrite decide_True; [done|]. apply elem_of_seq. lia.
  - rewrite decide_False; [done|]. rewrite elem_of_seq. lia.
Qed.

Lemma omap_ext_elem {X Y} (f g : X → option Y) (l : list X) :
  (∀ x, x ∈ l → f x = g x) → omap f l = omap g l.
Proof.
  induction l as [|x l IH]; intros H; cbn; [done|].
  rewrite (H x) by apply list_elem_of_here.
  rewrite IH; [done|]. intros y Hy. by apply H, list_elem_of_further.
Qed.

(** The path of a heading: the titles of the levels below its own that
    are open, and its own title last. *)
Lemma path_titles_push lvl title hid (stack : gmap nat (str * str)) :
  (1 ≤ lvl)%nat →
  path_titles lvl (pop_deeper lvl (<[lvl := (title, hid)]> stack))
  = omap (λ i, fst <$> stack !! i) (seq 1 (lvl - 1)) ++ [title].
Proof.
  intros Hlvl. unfold path_titles.
  replace lvl with (lvl - 1 + 1)%nat at 1 by lia.
  rewrite seq_app, omap_app. f_equal.
  - apply omap_ext_elem. intros i [Hi1 Hi2]%elem_of_seq.
    rewrite lookup_pop_deeper, decide_False by lia.
    by rewrite lookup_insert_ne by lia.
  - replace (1 + (lvl - 1))%nat with lvl by lia. cbn.
    rewrite lookup_pop_deeper, decide_False by lia.
    by rewrite lookup_insert_eq.
Qed.

(** ** Heading indexer *)

Section IndexerFacts.
Context (lower : str → str).

(** A token allocated from a slug: not in use, not empty, and made of
    slug characters, with or without a numeric suffix. *)
Lemma fresh_token title used :
  fst (unique_id (slugify lower title) used) ≠ []
  ∧ (fst (unique_id (slugify lower title) used) ∉ used)
  ∧ Forall (λ c, slug_char c = true) (fst (unique_id (slugify lower title) used)).
Proof.
  pose proof (slugify_nonempty lower title) as Hne.
  pose proof (Forall_slugify lower title) as Hall.
  split_and!; [| apply unique_id_fresh |].
  - destruct (unique_id_shape (slugify lower title) used) as [->|[i ->]]; [done|].
    unfold suffixed. by destruct (slugify lower title).
  - destruct (unique_id_shape (slugify lower title) used) as [->|[i ->]]; [done|].
    apply Forall_suffixed; [done | done |]. intros c. chars.
Qed.

(** The identifier of a heading is either allocated from the slug of its
    title, and then recorded in the map when it replaces an
    editor-generated identifier, or it is the identifier the heading had. *)
Lemma assign_id_cases flag title current used idm hid used' idm' :
  assign_id lower flag title current used idm = (hid, used', idm') →
  hid ≠ [] ∧ used' = {[hid]} ∪ used
  ∧ ((hid = fst (unique_id (slugify lower title) used)
      ∧ (current = [] ∨ is_zendesk_generated_id current = true)
      ∧ (flag = false → current = [])
      ∧ idm' = (if nonempty current then <[current := hid]> idm else idm))
     ∨ (hid = current ∧ should_replace flag current = false ∧ idm' = idm)).
Proof.
  unfold assign_id.
  destruct (fresh_token title used) as (Hne & Hfresh & Hall).
  pose proof (unique_id_used (slugify lower title) used) as Hused.
  destruct (unique_id (slugify lower title) used) as [tok used1]. cbn in *.
  destruct (should_replace flag current) eqn:Hrep.
  - intros [= <- <- <-]. split_and!; [done | done |]. left.
    unfold should_replace in Hrep.
    apply andb_true_iff in Hrep as [-> Hrep].
    apply orb_true_iff in Hrep as [Hrep|Hrep].
    + apply negb_true_iff, nonempty_false in Hrep. subst. by split_and!; [|left| |].
    + by split_and!; [|right| |].
  - destruct (nonempty current) eqn:Hcur.
    + intros [= <- <- <-]. split_and!; [by apply nonempty_true | done |].
      by right.
    + intros [= <- <- <-]. split_and!; [done | set_solver |]. left.
      apply nonempty_false in Hcur. subst. by split_and!; [|left| |].
Qed.

(** The body of the loop always returns on a heading tag. *)
Lemma index_heading_eq page_url flag st h lvl :
  heading_level (tag h) = Some lvl →
  index_heading lower page_url flag st h =
    let title := get_text (py " ") h in
    let r := assign_id lower flag title (current_id (attrs h))
               (used_ids st) (id_map st) in
    let stack' := pop_deeper lvl (<[lvl := (title, r.1.1)]> (stack st)) in
    Some (IndexerState r.1.2 stack'
            (rows st ++ [Row lvl title r.1.1
                           (join (py " > ") (path_titles lvl stack'))
                           (HASH :: r.1.1)
                           (if nonempty page_url
                            then page_url ++ HASH :: r.1.1
                            else HASH :: r.1.1)])
            r.2,
          <[ID := r.1.1]> (attrs h)).
Proof.
  intros Hlvl. unfold index_heading.
  destruct (assign_id _ _ _ _ _ _) as [[hid used'] idm'].
  by rewrite Hlvl.
Qed.

Lemma index_element_is_Some page_url flag st el :
  is_Some (index_element lower page_url flag st el).
Proof.
  unfold index_element. case_bool_decide as Hh; [|done].
  destruct (heading_level_tags _ Hh) as (lvl & Hlvl & _).
  by rewrite (index_heading_eq _ _ _ _ lvl).
Qed.

End IndexerFacts.

(** C5 fails as stated: the identifier of a heading is read without the
    white space around it.  An identifier of white space only, and an
    editor-generated identifier with a space before and after it, are not
    empty and do not match the pattern; both are replaced, and the map
    has the stripped identifier as the key. *)
Lemma padded_ids_replaced :
  py "  " ≠ [] ∧ ¬ editor_generated (py "  ")
  ∧ py " h_0000000000000000000A " ≠ []
  ∧ ¬ editor_generated (py " h_0000000000000000000A ")
  ∧ (λ r : list node * list row * gmap str str,
       (document_ids r.1.1, map_to_list r.2))
      <$> add_heading_ids_and_collect ascii_lower padded_ids [] true
    = Some ([py "epsilon"; py "zeta"],
            [(py "h_0000000000000000000A", py "zeta")]).
Proof.
  split_and!; [done | | done | | vm_compute; reflexivity];
    rewrite <- is_zendesk_generated_id_spec; vm_compute; discriminate.
Qed.

(** C5, amended: the classifier reads the identifier of a heading without
    the white space around it, and as empty when the heading has none.
    It decides to replace it if and only if [replace_existing_ids] is
    enabled and this stripped identifier is empty or matches the
    editor-generated pattern.  A heading that is classified so gets the
    identifier that the allocator returns for the slug of its title, and
    the map records it under the stripped identifier when that is not
    empty; any other heading keeps its stripped identifier, or gets an
    allocated one when it has none, and the map is left as it is.  With
    the flag enabled, [h_0000000000000000000A] is replaced,
    [intro-section] is preserved, and a missing or empty identifier is
    replaced; so are an identifier of white space only and an
    editor-generated identifier with a space before and after it. *)
Theorem index_heading_replaces (lower : str → str) (page_url : str)
    (flag : bool) (st : indexer_state) (h : element) :
  tag h ∈ HEADING_TAGS →
  ∃ st' a' hid,
    index_heading lower page_url flag st h = Some (st', a')
    ∧ a' !! ID = Some hid
    ∧ (should_replace flag (stripped_id h) = true
       ↔ flag = true
         ∧ (stripped_id h = [] ∨ editor_generated (stripped_id h)))
    ∧ (flag = true
       ∧ (stripped_id h = [] ∨ editor_generated (stripped_id h)) →
       hid = fst (unique_id (slugify lower (get_text (py " ") h))
                    (used_ids st))
       ∧ id_map st' = (if nonempty (stripped_id h)
                       then <[stripped_id h := hid]> (id_map st)
                       else id_map st))
    ∧ (¬ (flag = true
          ∧ (stripped_id h = [] ∨ editor_generated (stripped_id h))) →
       id_map st' = id_map st
       ∧ (stripped_id h ≠ [] → hid = stripped_id h)
       ∧ (stripped_id h = [] →
          hid = fst (unique_id (slugify lower (get_text (py " ") h))
                       (used_ids st))))
    ∧ (λ r : list node * list row * gmap str str,
         (document_ids r.1.1, map_to_list r.2))
        <$> add_heading_ids_and_collect ascii_lower classified [] true
      = Some ([py "alpha"; py "intro-section"; py "gamma"; py "delta"],
              [(py "h_0000000000000000000A", py "alpha")])
    ∧ (λ r : list node * list row * gmap str str,
         (document_ids r.1.1, map_to_list r.2))
        <$> add_heading_ids_and_collect ascii_lower padded_ids [] true
      = Some ([py "epsilon"; py "zeta"],
              [(py "h_0000000000000000000A", py "zeta")]).
Proof.
  intros Hh. destruct (heading_level_tags _ Hh) as (lvl & Hlvl & _).
  rewrite (index_heading_eq _ _ _ _ _ lvl Hlvl). cbn zeta.
  change (current_id (attrs h)) with (stripped_id h).
  assert (should_replace flag (stripped_id h) = true
          ↔ flag = true
            ∧ (stripped_id h = [] ∨ editor_generated (stripped_id h))) as Hiff.
  { unfold should_replace.
    rewrite andb_true_iff, orb_true_iff, negb_true_iff, nonempty_false.
    by rewrite is_zendesk_generated_id_spec. }
  destruct (assign_id lower flag _ (stripped_id h) _ _)
    as [[hid used'] idm'] eqn:Ea.
  eexists _, _, hid. cbn [fst snd id_map].
  split_and!; [done | by rewrite lookup_insert_eq | done | | |
               vm_compute; reflexivity | vm_compute; reflexivity].
  - intros Hrep%Hiff. unfold assign_id in Ea. rewrite Hrep in Ea.
    destruct (unique_id _ _) as [tok used1]. by injection Ea as <- _ <-.
  - intros Hn.
    assert (should_replace flag (stripped_id h) = false) as Hrep.
    { destruct (should_replace flag (stripped_id h)); [|done].
      exfalso. by apply Hn, Hiff. }
    unfold assign_id in Ea. rewrite Hrep in Ea.
    destruct (nonempty (stripped_id h)) eqn:Hne.
    + injection Ea as <- _ <-. split_and!; [done | done |].
      intros Hc. by rewrite Hc in Hne.
    + destruct (unique_id _ _) as [tok used1]. injection Ea as <- _ <-.
      split_and!; [done | | done].
      intros Hc. by apply nonempty_true in Hc; rewrite Hc in Hne.
Qed.

(** The heading whose editor-generated identifier has a space before and
    after it: it is given the slug of its title, and the map renames the
    stripped identifier. *)
Lemma index_heading_replaces_witness :
  ∃ st' a',
    index_heading ascii_lower [] true (IndexerState ∅ ∅ [] ∅)
      (Element (py "h2") {[ID := py " h_0000000000000000000A "]}
         [py "Zeta"])
    = Some (st', a')
    ∧ a' !! ID = Some (py "zeta")
    ∧ id_map st' !! py "h_0000000000000000000A" = Some (py "zeta").
Proof.
  destruct (index_heading_replaces ascii_lower [] true (IndexerState ∅ ∅ [] ∅)
              (Element (py "h2") {[ID := py " h_0000000000000000000A "]}
                 [py "Zeta"]))
    as (st' & a' & hid & E & Ha & _ & Hrep & _).
  - apply list_elem_of_further, list_elem_of_here.
  - destruct Hrep as [-> Hm].
    { split; [reflexivity|]. right. apply is_zendesk_generated_id_spec.
      vm_compute. reflexivity. }
    exists st', a'. split_and!; [exact E | |].
    + rewrite Ha. vm_compute. reflexivity.
    + rewrite Hm. vm_compute. reflexivity.
Defined.

(** C7: on a heading tag [hL], whose level is [L] (from 1 to 6), the
    indexer sets the path stack at [L] to the title and the identifier of
    the heading, discards every entry of a level greater than [L] and
    keeps the entries below.  The [absolutePath] of the row it emits is
    the titles of the entries that the stack then has at the levels
    [1..L], in increasing level order, joined with [" > "]: the titles of
    the open levels below [L] and the title of the heading last.  In the
    end-to-end scenario the [h2] titled Install that follows the [h1]
    titled Getting Started gets the path [Getting Started > Install]. *)
Theorem index_heading_path (lower : str → str) (page_url : str) (flag : bool)
    (st : indexer_state) (h : element) :
  tag h ∈ HEADING_TAGS →
  bounded (stack st) →
  ∃ st' a' lvl hid r,
    index_heading lower page_url flag st h = Some (st', a')
    ∧ heading_level (tag h) = Some lvl ∧ (1 ≤ lvl ≤ 6)%nat
    ∧ tag h = py "h" ++ str_of_int lvl
    ∧ a' !! ID = Some hid
    ∧ stack st' !! lvl = Some (get_text (py " ") h, hid)
    ∧ (∀ k, (lvl < k)%nat → stack st' !! k = None)
    ∧ (∀ k, (k < lvl)%nat → stack st' !! k = stack st !! k)
    ∧ bounded (stack st')
    ∧ rows st' = rows st ++ [r]
    ∧ row_level r = lvl
    ∧ row_heading r = get_text (py " ") h
    ∧ row_id r = hid
    ∧ row_absolutePath r
      = join (py " > ") (omap (λ i, fst <$> stack st' !! i) (seq 1 lvl))
    ∧ omap (λ i, fst <$> stack st' !! i) (seq 1 lvl)
      = omap (λ i, fst <$> stack st !! i) (seq 1 (lvl - 1))
        ++ [get_text (py " ") h]
    ∧ (λ r : list node * list row * gmap str str,
         (λ row, (row_level row, row_heading row, row_absolutePath row))
           <$> r.1.2)
        <$> add_heading_ids_and_collect ascii_lower scenario [] true
      = Some [(1%nat, py "Getting Started", py "Getting Started");
              (2%nat, py "Install", py "Getting Started > Install")].
Proof.
  intros Hh Hb. destruct (heading_level_tags _ Hh) as (lvl & Hlvl & Hrange).
  rewrite (index_heading_eq _ _ _ _ _ lvl Hlvl). cbn zeta.
  set (title := get_text (py " ") h).
  set (r := assign_id lower flag title (current_id (attrs h))
              (used_ids st) (id_map st)).
  eexists _, _, lvl, r.1.1, _. split; [done|]. cbn.
  split_and!; try done; try lia.
  - by apply heading_level_name.
  - by rewrite lookup_insert_eq.
  - rewrite lookup_pop_deeper, decide_False by lia. by rewrite lookup_insert_eq.
  - intros k Hk. rewrite lookup_pop_deeper.
    destruct (decide (lvl < k < 7)%nat) as [|Hn]; [done|].
    rewrite lookup_insert_ne by lia.
    apply eq_None_not_Some. intros Hs%Hb. lia.
  - intros k Hk. rewrite lookup_pop_deeper, decide_False by lia.
    by rewrite lookup_insert_ne by lia.
  - intros k. rewrite lookup_pop_deeper.
    destruct (decide (lvl < k < 7)%nat); [by intros [? ?]|].
    destruct (decide (lvl = k)) as [<-|]; [lia|].
    rewrite lookup_insert_ne by done. apply Hb.
  - apply path_titles_push. lia.
Qed.

(** The two headings of the end-to-end scenario, one after the other from
    the state in which the indexer starts: the [h2] titled Install after
    the [h1] titled Getting Started. *)
Lemma index_heading_path_witness :
  ∃ st1 a1 st2 a2 r,
    index_heading ascii_lower [] true
      (IndexerState (collect_ids (find_all scenario)) ∅ [] ∅)
      (Element (py "h1") {[ID := ZD_ID]} [py "Getting Started"])
    = Some (st1, a1)
    ∧ index_heading ascii_lower [] true st1
        (Element (py "h2") ∅ [py "Install"])
      = Some (st2, a2)
    ∧ rows st2 = rows st1 ++ [r]
    ∧ row_level r = 2%nat
    ∧ row_absolutePath r = py "Getting Started > Install".
Proof.
  destruct (index_heading_path ascii_lower [] true
              (IndexerState (collect_ids (find_all scenario)) ∅ [] ∅)
              (Element (py "h1") {[ID := ZD_ID]} [py "Getting Started"]))
    as (st1 & a1 & lvl1 & hid1 & r1 & E1 & Hlvl1 & _ & _ & _ & Hs1 & _ & _
        & Hb1 & _).
  - apply list_elem_of_here.
  - intros k [x Hx]. cbn in Hx. by rewrite lookup_empty in Hx.
  - destruct (index_heading_path ascii_lower [] true st1
                (Element (py "h2") ∅ [py "Install"]))
      as (st2 & a2 & lvl2 & hid2 & r2 & E2 & Hlvl2 & _ & _ & _ & _ & _ & _
          & _ & Hrows & Hrl & _ & _ & Hpath & Htitles & _).
    + apply list_elem_of_further, list_elem_of_here.
    + exact Hb1.
    + vm_compute in Hlvl1, Hlvl2.
      injection Hlvl1 as <-. injection Hlvl2 as <-.
      exists st1, a1, st2, a2, r2.
      split_and!; [exact E1 | exact E2 | exact Hrows | exact Hrl |].
      rewrite Hpath, Htitles. cbn [seq omap list_omap Nat.sub].
      rewrite Hs1. reflexivity.
Defined.

(** The rows of the end-to-end scenario: the identifiers and the paths. *)
Example scenario_paths :
  (λ r : list node * list row * gmap str str,
     (λ row, (row_id row, row_absolutePath row)) <$> r.1.2)
    <$> add_heading_ids_and_collect ascii_lower scenario [] true
  = Some [(py "getting-started", py "Getting Started");
          (py "install", py "Getting Started > Install")].
Proof. vm_compute. reflexivity. Qed.

(** The identifier map of the scenario, and what the rewriter returns on
    the indexed document: one link rewritten, one link reported. *)
Example scenario_links :
  (λ r : list node * list row * gmap str str,
     (map_to_list r.2,
      (λ r' : list node * nat * list broken_link, (r'.1.2, r'.2))
        <$> rewrite_cross_references r.1.1 r.2))
    <$> add_heading_ids_and_collect ascii_lower scenario [] true
  = Some ([(ZD_ID, py "getting-started")],
          Some (1%nat, [BrokenLink (py "#missing") (py "gone")])).
Proof. vm_compute. reflexivity. Qed.

(** ** The run of the indexer over a document *)

Lemma visit_all_Some {S} (body : S → element → option (S * gmap str str))
    s soup s' soup' :
  visit_all body s soup = Some (s', soup') →
  each body s (find_all soup) = Some (s', find_all soup')
  ∧ flat_map node_strings soup' = flat_map node_strings soup.
Proof.
  intros E.
  pose proof (visit_all_agrees_Forall body soup
                (Forall_true _ _ (visit_agrees_all body)) s) as H.
  rewrite E in H. by destruct H.
Qed.

Lemma set_attrs_id el : set_attrs (attrs el) el = el.
Proof. by destruct el. Qed.

Lemma id_value_insert hid el :
  hid ≠ [] → id_value (set_attrs (<[ID := hid]> (attrs el)) el) = [hid].
Proof.
  intros Hne. unfold id_value. cbn. rewrite lookup_insert_eq.
  by destruct hid.
Qed.

Lemma elem_of_collect_ids els x :
  x ∈ collect_ids els ↔ x ∈ ids_of els.
Proof.
  unfold collect_ids, ids_of.
  assert (∀ acc : gset str,
            x ∈ foldl (λ ids el,
                         match attrs el !! ID with
                         | Some v => if nonempty v then {[v]} ∪ ids else ids
                         | None => ids
                         end) acc els
            ↔ x ∈ acc ∨ x ∈ flat_map id_value els) as H.
  { induction els as [|el els IH]; intros acc; cbn [foldl flat_map].
    - rewrite elem_of_nil. naive_solver.
    - rewrite IH, elem_of_app. unfold id_value.
      destruct (attrs el !! ID) as [v|]; [|rewrite elem_of_nil; naive_solver].
      destruct (nonempty v); [|rewrite elem_of_nil; naive_solver].
      rewrite elem_of_union, elem_of_singleton, list_elem_of_singleton.
      naive_solver. }
  rewrite H. set_solver.
Qed.

Section Run.
Context (lower : str → str) (page_url : str) (flag : bool).

(** What the body of the loop does to one tag: nothing when it is not a
    heading; on a heading it assigns the identifier that [assign_id]
    chooses. *)
Lemma index_element_cases st el st' a' :
  index_element lower page_url flag st el = Some (st', a') →
  ((tag el ∉ HEADING_TAGS) ∧ st' = st ∧ a' = attrs el)
  ∨ (tag el ∈ HEADING_TAGS
     ∧ ∃ hid, a' = <[ID := hid]> (attrs el)
              ∧ assign_id lower flag (get_text (py " ") el)
                  (current_id (attrs el)) (used_ids st) (id_map st)
                = (hid, used_ids st', id_map st')).
Proof.
  unfold index_element. case_bool_decide as Hh.
  - destruct (heading_level_tags _ Hh) as (lvl & Hlvl & _).
    rewrite (index_heading_eq _ _ _ _ _ lvl Hlvl). cbn zeta.
    intros [= <- <-]. right. split; [done|]. eexists. split; [done|]. cbn.
    by destruct (assign_id _ _ _ _ _ _) as [[??]?].
  - intros [= <- <-]. by left.
Qed.

(** The entries of the identifier map: what is renamed is an
    editor-generated identifier, and its new name is the identifier of a
    heading that the loop has left behind. *)
Lemma each_index_map_ok els st done st' out :
  each (index_element lower page_url flag) st els = Some (st', out) →
  map_ok (id_map st) done →
  map_ok (id_map st') (done ++ ids_of out).
Proof.
  revert st done out. induction els as [|el els IH]; intros st done out; cbn.
  - intros [= <- <-] H. by rewrite app_nil_r.
  - destruct (index_element _ _ _ st el) as [[st1 a']|] eqn:E; cbn; [|done].
    destruct (each _ st1 els) as [[st2 out']|] eqn:E'; cbn; [|done].
    intros [= <- <-] Hok. unfold ids_of. cbn [flat_map].
    rewrite app_assoc. apply (IH st1); [done|].
    apply index_element_cases in E as [(_ & -> & ->)|(_ & hid & -> & Ha)].
    + intros old new Hm. destruct (Hok old new Hm) as (? & ? & ?).
      split_and!; [done | done |]. apply elem_of_app. by left.
    + apply assign_id_cases in Ha
        as (Hne & _ & [(Hhid & Hcur & _ & Hm')|(_ & _ & Hm')]).
      * rewrite id_value_insert by done. rewrite Hm'.
        intros old new. destruct (nonempty (current_id (attrs el))) eqn:Hc.
        -- destruct (decide (old = current_id (attrs el))) as [->|Hold].
           ++ rewrite lookup_insert_eq. intros [= <-].
              destruct Hcur as [Hcur|Hcur]; [by rewrite Hcur in Hc|].
              split_and!; [done | | apply elem_of_app; right; apply list_elem_of_here].
              rewrite Hhid. apply fresh_token.
           ++ rewrite lookup_insert_ne by done. intros Hm.
              destruct (Hok old new Hm) as (? & ? & ?).
              split_and!; [done | done |]. apply elem_of_app. by left.
        -- intros Hm. destruct (Hok old new Hm) as (? & ? & ?).
           split_and!; [done | done |]. apply elem_of_app. by left.
      * rewrite Hm'. intros old new Hm.
        destruct (Hok old new Hm) as (? & ? & ?).
        split_and!; [done | done |]. apply elem_of_app. by left.
Qed.

(** No stack of a run has a level above 6. *)
Lemma index_element_bounded st el st' a' :
  index_element lower page_url flag st el = Some (st', a') →
  bounded (stack st) → bounded (stack st').
Proof.
  unfold index_element. case_bool_decide as Hh; [|by intros [= <- _]].
  destruct (heading_level_tags _ Hh) as (lvl & Hlvl & Hrange).
  rewrite (index_heading_eq _ _ _ _ _ lvl Hlvl). cbn zeta.
  intros [= <- _] Hb k. cbn. rewrite lookup_pop_deeper.
  destruct (decide (lvl < k < 7)%nat); [by intros [? ?]|].
  destruct (decide (lvl = k)) as [<-|]; [lia|].
  rewrite lookup_insert_ne by done. apply Hb.
Qed.

Lemma each_index_bounded els st st' out :
  each (index_element lower page_url flag) st els = Some (st', out) →
  bounded (stack st) → bounded (stack st').
Proof.
  revert st out. induction els as [|el els IH]; intros st out; cbn.
  - by intros [= <- _].
  - destruct (index_element _ _ _ st el) as [[st1 a']|] eqn:E; cbn; [|done].
    destruct (each _ st1 els) as [[st2 out']|] eqn:E'; cbn; [|done].
    intros [= <- _] Hb. apply (IH _ _ E').
    by eapply index_element_bounded.
Qed.

End Run.

Lemma slug_chars_no_underscore (s : str) :
  Forall (λ c, slug_char c = true) s → UNDERSCORE ∉ s.
Proof.
  intros H Hin. rewrite Forall_forall in H.
  by apply (slug_char_not_underscore _ (H _ Hin)).
Qed.

Lemma slug_chars_not_zendesk (s : str) :
  Forall (λ c, slug_char c = true) s → is_zendesk_generated_id s = false.
Proof.
  intros H. destruct (is_zendesk_generated_id s) eqn:E; [|done].
  by apply zendesk_has_underscore, slug_chars_no_underscore in E.
Qed.

Lemma map_ok_neq idm ids old new :
  map_ok idm ids → idm !! old = Some new → old ≠ new.
Proof.
  intros Hok Hm. destruct (Hok old new Hm) as (Hz & Hs & _).
  intros ->. by rewrite (slug_chars_not_zendesk new Hs) in Hz.
Qed.

(** The indexer always returns; its result is the result of the loop
    over the tags, which starts from the identifiers of the document. *)
Lemma index_run lower soup page_url flag :
  ∃ st' soup',
    add_heading_ids_and_collect lower soup page_url flag
    = Some (soup', rows st', id_map st')
    ∧ each (index_element lower page_url flag)
        (IndexerState (collect_ids (find_all soup)) ∅ [] ∅) (find_all soup)
      = Some (st', find_all soup').
Proof.
  unfold add_heading_ids_and_collect.
  set (st0 := IndexerState (collect_ids (find_all soup)) ∅ [] ∅).
  destruct (visit_all_is_Some (index_element lower page_url flag) st0 soup)
    as [[st' soup'] E].
  { intros st el. apply index_element_is_Some. }
  exists st', soup'. rewrite E. split; [done|].
  by apply visit_all_Some in E as [? _].
Qed.

(** The same for the rewriter, which leaves the identifiers alone. *)
Lemma rewrite_run soup m :
  ∃ st' soup',
    rewrite_cross_references soup m
    = Some (soup', changed_count st', broken st')
    ∧ each (rewrite_element m (collect_ids (find_all soup)))
        (RewriterState 0 []) (find_all soup)
      = Some (st', find_all soup')
    ∧ document_ids soup' = document_ids soup.
Proof.
  unfold rewrite_cross_references.
  set (ids := collect_ids (find_all soup)).
  destruct (visit_all_is_Some (rewrite_element m ids) (RewriterState 0 []) soup)
    as [[st' soup'] E].
  { intros st el. apply rewrite_element_is_Some. }
  exists st', soup'. rewrite E.
  apply visit_all_Some in E as [E _]. split_and!; [done | done |].
  unfold document_ids. apply Forall2_ids_of.
  eapply each_Forall2; [|exact E].
  intros ????. apply rewrite_element_id.
Qed.

(** A link whose last fragment is a key of the map gets the new name. *)
Lemma rewrite_element_retarget m ids st el st' a' base old new :
  rewrite_element m ids st el = Some (st', a') →
  tag el = A → attrs el !! HREF = Some (base ++ HASH :: old) →
  HASH ∉ old → old ≠ [] → m !! old = Some new →
  a' !! HREF = Some (base ++ HASH :: new).
Proof.
  intros E Ha Hhref Hno Hne Hm. unfold rewrite_element in E.
  rewrite bool_decide_eq_true_2, rewrite_link_eq in E by done.
  assert (retargeted m (attrs el) = Some (base ++ HASH :: new)) as Hr.
  { unfold retargeted. rewrite Hhref. cbn.
    assert (split_last HASH (base ++ HASH :: old) = Some (base, old)) as ->
      by (by apply split_last_Some).
    cbn. rewrite Hm. cbn. by destruct old. }
  rewrite Hr in E. injection E as _ <-. by rewrite lookup_insert_eq.
Qed.

Lemma count_mutated_cons el el' els out :
  count_mutated (el :: els) (el' :: out)
  = ((if decide (attrs el !! HREF ≠ attrs el' !! HREF) then 1 else 0)
     + count_mutated els out)%nat.
Proof.
  unfold count_mutated. cbn [zip zip_with]. rewrite filter_cons. cbn.
  by destruct (decide _).
Qed.

(** [changed_count] counts the tags whose [href] is not what it was, when
    no entry of the map renames an identifier to itself. *)
Lemma each_rewrite_count m ids els st st' out :
  (∀ old new, m !! old = Some new → old ≠ new) →
  each (rewrite_element m ids) st els = Some (st', out) →
  changed_count st' = (changed_count st + count_mutated els out)%nat.
Proof.
  intros Hneq. revert st out.
  induction els as [|el els IH]; intros st out; cbn [each].
  - intros [= <- <-]. unfold count_mutated. cbn. lia.
  - destruct (rewrite_element m ids st el) as [[st1 a']|] eqn:E;
      cbn [mbind option_bind]; [|done].
    destruct (each _ st1 els) as [[st2 out']|] eqn:E';
      cbn [mbind option_bind]; [|done].
    intros [= <- <-]. rewrite (IH _ _ E'), count_mutated_cons.
    cbn [attrs set_attrs].
    unfold rewrite_element in E. case_bool_decide as Ha.
    + rewrite rewrite_link_eq in E.
      destruct (retargeted m (attrs el)) as [new_href|] eqn:Er.
      * injection E as <- <-. cbn. rewrite lookup_insert_eq.
        apply retargeted_Some in Er
          as (href & base & frag & new & Hh & Hs & _ & Hm & ->).
        apply split_last_Some in Hs as [-> _].
        rewrite decide_True; [lia|]. rewrite Hh. intros [= H].
        apply app_inv_head in H. injection H as H.
        by apply (Hneq frag new Hm).
      * injection E as <- <-. cbn. rewrite decide_False; [lia|]. by intros H.
    + injection E as <- <-. rewrite decide_False; [lia|]. by intros H.
Qed.

(** C1 fails as stated: two headings that carry the same identifier
    chosen by the author keep it, whatever [replace_existing_ids] is. *)
Lemma twice_intro_not_unique :
  (λ r : list node * list row * gmap str str, document_ids r.1.1)
    <$> add_heading_ids_and_collect ascii_lower twice_intro [] true
  = Some [py "intro"; py "intro"]
  ∧ (λ r : list node * list row * gmap str str, document_ids r.1.1)
      <$> add_heading_ids_and_collect ascii_lower twice_intro [] false
    = Some [py "intro"; py "intro"].
Proof. split; vm_compute; reflexivity. Qed.

(** White space around the identifier of a heading also breaks uniqueness:
    the heading is given the trimmed identifier, which an earlier heading
    may have been allocated. *)
Example padded_id_not_unique :
  (λ r : list node * list row * gmap str str, document_ids r.1.1)
    <$> add_heading_ids_and_collect ascii_lower
          [ Tag (py "h1") ∅ [Text (py "X")];
            Tag (py "h2") {[ID := py " x "]} [Text (py "Y")] ] [] true
  = Some [py "x"; py "x"].
Proof. vm_compute. reflexivity. Qed.

(** Two headings with the same title and no identifier: the second is
    given the first free suffix. *)
Example collision_scenario :
  (λ r : list node * list row * gmap str str, document_ids r.1.1)
    <$> add_heading_ids_and_collect ascii_lower
          [ Tag (py "h2") ∅ [Text (py "Notes")];
            Tag (py "h2") ∅ [Text (py "Notes")] ] [] true
  = Some [py "notes"; py "notes-2"].
Proof. vm_compute. reflexivity. Qed.

(** Two headings with the same editor-generated identifier: both are
    replaced, and the identifiers of the new document are distinct. *)
Example twice_editor_unique :
  (λ r : list node * list row * gmap str str, document_ids r.1.1)
    <$> add_heading_ids_and_collect ascii_lower twice_editor [] true
  = Some [py "overview"; py "lead"; py "overview-2"].
Proof. vm_compute. reflexivity. Qed.

Section Unique.
Context (lower : str → str) (page_url : str) (flag : bool).

(** What the indexer does to the identifier of one tag: it leaves the
    identifier that is preserved, or it allocates one that is not in use. *)
Lemma index_element_ids st el st' a' :
  index_element lower page_url flag st el = Some (st', a') →
  used_ids st ⊆ used_ids st'
  ∧ ((allocated_id flag (el, set_attrs a' el) = []
      ∧ id_value (set_attrs a' el) = preserved_id flag el)
     ∨ ∃ hid,
         preserved_id flag el = []
         ∧ allocated_id flag (el, set_attrs a' el) = [hid]
         ∧ id_value (set_attrs a' el) = [hid]
         ∧ (hid ∉ used_ids st) ∧ hid ∈ used_ids st').
Proof.
  intros [(Hh & -> & ->)|(Hh & hid & -> & Ha)]%index_element_cases.
  - split; [done|]. left. unfold allocated_id, preserved_id. cbn.
    rewrite !bool_decide_eq_false_2 by done. by rewrite set_attrs_id.
  - apply assign_id_cases in Ha as (Hne & Hu & Hcases).
    split; [rewrite Hu; set_solver|].
    unfold allocated_id, preserved_id. cbn [fst snd].
    rewrite !bool_decide_eq_true_2 by done. rewrite id_value_insert by done.
    change (current_id (attrs el)) with (stripped_id el) in Hcases.
    destruct Hcases as [(Hhid & Hcur & Hflag & _)|(Hhid & Hrep & _)].
    + right. exists hid.
      assert (preserves flag el = false) as ->.
      { unfold preserves. destruct Hcur as [->|Hz]; [done|].
        destruct flag; [by rewrite Hz, andb_false_r|].
        rewrite Hflag in Hz by done. done. }
      split_and!; [done | done | done | | rewrite Hu; set_solver].
      rewrite Hhid. apply fresh_token.
    + left. subst hid.
      assert (preserves flag el = true) as ->; [|done].
      unfold preserves. apply nonempty_true in Hne. rewrite Hne.
      unfold should_replace in Hrep. rewrite Hne in Hrep. cbn in Hrep.
      by rewrite Hrep.
Qed.

(** Every identifier of the new document is preserved or allocated; the
    allocated ones are pairwise distinct and none was in use. *)
Lemma each_index_ids els st st' out :
  each (index_element lower page_url flag) st els = Some (st', out) →
  used_ids st ⊆ used_ids st'
  ∧ ids_of out ≡ₚ preserved_ids flag els ++ allocated_ids flag els out
  ∧ NoDup (allocated_ids flag els out)
  ∧ ∀ x, x ∈ allocated_ids flag els out → x ∉ used_ids st.
Proof.
  revert st out. induction els as [|el els IH]; intros st out; cbn [each].
  - intros [= <- <-]. split_and!; [done | done | constructor |].
    by intros x ?%elem_of_nil.
  - destruct (index_element _ _ _ st el) as [[st1 a']|] eqn:E;
      cbn [mbind option_bind]; [|done].
    destruct (each _ st1 els) as [[st2 out']|] eqn:E';
      cbn [mbind option_bind]; [|done].
    intros [= <- <-].
    destruct (IH _ _ E') as (Hsub' & Hperm & Hnd & Hfresh).
    apply index_element_ids in E as (Hsub & Hcase).
    unfold ids_of, preserved_ids, allocated_ids in *.
    cbn [zip zip_with flat_map].
    split; [set_solver|].
    destruct Hcase as [(-> & ->)|(hid & -> & -> & -> & Hnew & Hin)].
    + cbn [app]. split_and!; [| done |].
      * by rewrite Hperm, app_assoc.
      * intros x Hx Hu. by apply (Hfresh x Hx), Hsub.
    + cbn [app]. split_and!.
      * rewrite Hperm. apply Permutation_middle.
      * apply NoDup_cons. split; [|done].
        intros Hx. by apply (Hfresh hid Hx).
      * intros x [->|Hx]%elem_of_cons; [done|].
        intros Hu. by apply (Hfresh x Hx), Hsub.
Qed.

(** A preserved identifier without white space around it is an
    identifier of the input as it stands. *)
Lemma preserved_ids_trimmed els x :
  preserved_trimmed flag els →
  x ∈ preserved_ids flag els → x ∈ ids_of els.
Proof.
  unfold preserved_ids, ids_of.
  induction 1 as [|el els Hel _ IH]; cbn [flat_map]; [done|].
  rewrite !elem_of_app. intros [Hx|Hx]; [left | right; by apply IH].
  unfold preserved_id in Hx. case_bool_decide as Hh; [|done].
  destruct (preserves flag el) eqn:Hp; [|by apply elem_of_nil in Hx].
  apply list_elem_of_singleton in Hx as ->.
  unfold preserves in Hp. apply andb_true_iff in Hp as [Hne _].
  unfold id_value. unfold stripped_id in *.
  destruct (attrs el !! ID) as [v|] eqn:Ev; [|done].
  change (default [] (Some v)) with v in *.
  rewrite (Hel Hh eq_refl v eq_refl) in *.
  rewrite Hne. apply list_elem_of_here.
Qed.

End Unique.

(** C1, amended: for every document and both values of
    [replace_existing_ids] the indexer returns, and every identifier of
    the new document is either preserved from the input (the identifier
    of a tag that is no heading, or the stripped identifier of a heading
    that is not empty and not to be replaced) or allocated.  The
    allocated identifiers are pairwise distinct and differ from every
    identifier of the input.  So no two tags of the new document carry
    the same identifier if and only if the preserved identifiers are
    pairwise distinct and none of them is also allocated; and when the
    preserved identifiers of the headings have no white space around
    them, if and only if the preserved identifiers are pairwise
    distinct. *)
Theorem ids_unique_iff (lower : str → str) (soup : list node)
    (page_url : str) (flag : bool) :
  ∃ soup' rows m,
    add_heading_ids_and_collect lower soup page_url flag = Some (soup', rows, m)
    ∧ document_ids soup'
      ≡ₚ preserved_ids flag (find_all soup)
         ++ allocated_ids flag (find_all soup) (find_all soup')
    ∧ NoDup (allocated_ids flag (find_all soup) (find_all soup'))
    ∧ (∀ x, x ∈ allocated_ids flag (find_all soup) (find_all soup') →
            x ∉ document_ids soup)
    ∧ (NoDup (document_ids soup')
       ↔ NoDup (preserved_ids flag (find_all soup))
         ∧ ∀ x, x ∈ preserved_ids flag (find_all soup) →
                x ∉ allocated_ids flag (find_all soup) (find_all soup'))
    ∧ (preserved_trimmed flag (find_all soup) →
       (NoDup (document_ids soup')
        ↔ NoDup (preserved_ids flag (find_all soup)))).
Proof.
  destruct (index_run lower soup page_url flag) as (st' & soup' & E & Heach).
  exists soup', (rows st'), (id_map st'). split; [done|].
  apply each_index_ids in Heach as (_ & Hperm & Hnd & Hfresh).
  cbn [used_ids] in Hfresh. unfold document_ids.
  set (pres := preserved_ids flag (find_all soup)) in *.
  set (al := allocated_ids flag (find_all soup) (find_all soup')) in *.
  assert (∀ x, x ∈ al → x ∉ ids_of (find_all soup)) as Hnew.
  { intros x Hx Hin. by apply (Hfresh x Hx), elem_of_collect_ids. }
  assert (NoDup (ids_of (find_all soup'))
          ↔ NoDup pres ∧ ∀ x, x ∈ pres → x ∉ al) as Hiff.
  { rewrite Hperm, NoDup_app. naive_solver. }
  split_and!; [done | done | done | done |].
  intros Htrim. rewrite Hiff. split; [by intros [? _]|].
  intros Hp. split; [done|]. intros x Hx Hal.
  apply (Hnew x Hal). by eapply preserved_ids_trimmed.
Qed.

(** Two headings that share one editor-generated identifier: nothing but
    the identifier of the paragraph is preserved, and the identifiers of
    the new document are pairwise distinct. *)
Lemma ids_unique_iff_witness :
  ∃ soup' rows m,
    add_heading_ids_and_collect ascii_lower twice_editor [] true
    = Some (soup', rows, m)
    ∧ NoDup (document_ids soup').
Proof.
  destruct (ids_unique_iff ascii_lower twice_editor [] true)
    as (soup' & rows & m & E & _ & _ & _ & _ & Hiff).
  exists soup', rows, m. split; [exact E|]. apply Hiff.
  - repeat constructor; intros _ Hp; vm_compute in Hp; try discriminate;
      intros v; vm_compute; intros [= <-]; reflexivity.
  - vm_compute. apply NoDup_singleton.
Defined.

(** What the indexer returns: the identifier map renames editor-generated
    identifiers to slug tokens that tags of the new document carry. *)
Lemma index_run_map_ok lower soup page_url flag soup' rows m :
  add_heading_ids_and_collect lower soup page_url flag = Some (soup', rows, m) →
  map_ok m (document_ids soup').
Proof.
  destruct (index_run lower soup page_url flag) as (st' & soup1 & E & Heach).
  rewrite E. intros [= <- _ <-].
  apply (each_index_map_ok _ _ _ _ _ [] _ _ Heach).
  by intros old new Hm.
Qed.

(** C3: the indexer followed by the rewriter.  For every entry
    [old -> new] of the identifier map, every [a] tag whose [href] is
    [base#old] (with [base] empty or not) has the [href] [base#new] after
    the rewriting, [new] is among the identifiers of the final document,
    and [changed_count] is the number of tags whose [href] is not what it
    was. *)
Theorem rewrite_resolves (lower : str → str) (soup : list node)
    (page_url : str) (flag : bool) :
  ∃ soup1 rows m soup2 n broken,
    add_heading_ids_and_collect lower soup page_url flag = Some (soup1, rows, m)
    ∧ rewrite_cross_references soup1 m = Some (soup2, n, broken)
    ∧ (∀ old new, m !! old = Some new → new ∈ document_ids soup2)
    ∧ Forall2 (λ el el', ∀ base old new,
                 tag el = A →
                 attrs el !! HREF = Some (base ++ HASH :: old) →
                 m !! old = Some new →
                 attrs el' !! HREF = Some (base ++ HASH :: new))
        (find_all soup1) (find_all soup2)
    ∧ n = count_mutated (find_all soup1) (find_all soup2).
Proof.
  destruct (index_run lower soup page_url flag) as (st1 & soup1 & E1 & _).
  pose proof (index_run_map_ok _ _ _ _ _ _ _ E1) as Hok.
  destruct (rewrite_run soup1 (id_map st1)) as (st2 & soup2 & E2 & Heach & Hids).
  exists soup1, (rows st1), (id_map st1), soup2, (changed_count st2), (broken st2).
  split_and!; [done | done | | |].
  - intros old new Hm. rewrite Hids. by apply (Hok old new).
  - eapply each_Forall2; [|exact Heach].
    intros st el st' a' E base old new Ha Hhref Hm. cbn.
    destruct (Hok old new Hm) as (Hz & _ & _).
    eapply rewrite_element_retarget; try done.
    + by apply zendesk_no_hash.
    + by apply zendesk_nonempty.
  - rewrite (each_rewrite_count _ _ _ _ _ _ (λ old new, map_ok_neq _ _ old new Hok) Heach).
    done.
Qed.

(** C9: an identifier allocated from the slug of a title, with a numeric
    suffix or without, has no underscore and does not match the
    editor-generated pattern, so that a second run of the indexer keeps
    it; and every entry [old -> new] of the identifier map that the
    indexer returns has [old ≠ new]. *)
Theorem fresh_ids_not_editor_generated (lower : str → str) (title : str)
    (used : gset str) (flag : bool) (soup : list node) (page_url : str)
    (flag' : bool) :
  let hid := fst (unique_id (slugify lower title) used) in
  (UNDERSCORE ∉ hid)
  ∧ is_zendesk_generated_id hid = false
  ∧ ¬ editor_generated hid
  ∧ current_id {[ID := hid]} = hid
  ∧ should_replace flag (current_id {[ID := hid]}) = false
  ∧ ∃ soup' rows m,
      add_heading_ids_and_collect lower soup page_url flag'
      = Some (soup', rows, m)
      ∧ ∀ old new, m !! old = Some new → old ≠ new.
Proof.
  intros hid. destruct (fresh_token lower title used) as (Hne & _ & Hall).
  fold hid in Hne, Hall.
  assert (current_id {[ID := hid]} = hid) as Hcur.
  { unfold current_id. rewrite lookup_singleton_eq. cbn [default from_option id].
    apply strip_id. eapply Forall_impl; [exact Hall|].
    intros c. apply slug_char_not_space. }
  split_and!.
  - by apply slug_chars_no_underscore.
  - by apply slug_chars_not_zendesk.
  - rewrite <- is_zendesk_generated_id_spec.
    by rewrite slug_chars_not_zendesk.
  - done.
  - rewrite Hcur. unfold should_replace.
    rewrite (slug_chars_not_zendesk hid Hall).
    apply nonempty_true in Hne. rewrite Hne. apply andb_false_r.
  - destruct (index_run lower soup page_url flag') as (st' & soup' & E & _).
    exists soup', (rows st'), (id_map st'). split; [done|].
    intros old new. eapply map_ok_neq. by eapply index_run_map_ok.
Qed.

(** * Further properties *)

(** ** The rows of the indexer *)

Lemma get_text_set_attrs sep a el :
  get_text sep (set_attrs a el) = get_text sep el.
Proof. reflexivity. Qed.

Section Rows.
Context (lower : str → str) (page_url : str) (flag : bool).

(** A heading gets a row that describes it; no other tag gets a row. *)
Lemma index_element_row st el st' a' :
  index_element lower page_url flag st el = Some (st', a') →
  ((tag el ∉ HEADING_TAGS) ∧ rows st' = rows st)
  ∨ (tag el ∈ HEADING_TAGS
     ∧ ∃ r, rows st' = rows st ++ [r]
            ∧ describes page_url (set_attrs a' el) r).
Proof.
  unfold index_element. case_bool_decide as Hh; [|intros [= <- _]; by left].
  destruct (heading_level_tags _ Hh) as (lvl & Hlvl & _).
  rewrite (index_heading_eq _ _ _ _ _ lvl Hlvl). cbn zeta.
  destruct (assign_id _ _ _ _ _ _) as [[hid used'] idm'] eqn:Ea.
  apply assign_id_cases in Ea as (Hne & _).
  intros [= <- <-]. right. split; [done|]. eexists. split; [done|].
  unfold describes. cbn. rewrite lookup_insert_eq. by split_and!.
Qed.

Lemma each_index_rows els st st' out :
  each (index_element lower page_url flag) st els = Some (st', out) →
  ∃ new, rows st' = rows st ++ new
         ∧ Forall2 (describes page_url)
             (filter (λ el, tag el ∈ HEADING_TAGS) out) new.
Proof.
  revert st out. induction els as [|el els IH]; intros st out; cbn [each].
  - intros [= <- <-]. exists []. by rewrite app_nil_r.
  - destruct (index_element _ _ _ st el) as [[st1 a']|] eqn:E;
      cbn [mbind option_bind]; [|done].
    destruct (each _ st1 els) as [[st2 out']|] eqn:E';
      cbn [mbind option_bind]; [|done].
    intros [= <- <-]. destruct (IH _ _ E') as (new & Hrows & Hall).
    apply index_element_row in E as [(Hh & Hr)|(Hh & r & Hr & Hd)].
    + exists new. rewrite Hrows, Hr. split; [done|].
      by rewrite filter_cons_False.
    + exists (r :: new). rewrite Hrows, Hr, <- app_assoc. split; [done|].
      rewrite filter_cons_True by done. by constructor.
Qed.

End Rows.

(** X1: the indexer never raises, and it returns one row for each heading
    tag of the document, in document order: the level of the tag, the
    text of the heading, the identifier that the heading carries in the
    new document (never empty), the anchor and the link built from it. *)
Theorem index_rows (lower : str → str) (soup : list node) (page_url : str)
    (flag : bool) :
  ∃ soup' rows m,
    add_heading_ids_and_collect lower soup page_url flag = Some (soup', rows, m)
    ∧ Forall2 (describes page_url)
        (filter (λ el, tag el ∈ HEADING_TAGS) (find_all soup')) rows.
Proof.
  destruct (index_run lower soup page_url flag) as (st' & soup' & E & Heach).
  exists soup', (rows st'), (id_map st'). split; [done|].
  by destruct (each_index_rows _ _ _ _ _ _ _ Heach) as (new & -> & Hall).
Qed.

(** ** The frame of the indexer *)

Lemma index_element_id_frame lower page_url flag st el st' a' :
  index_element lower page_url flag st el = Some (st', a') →
  id_frame flag (tag el) (attrs el) a'.
Proof.
  intros [(Hh & _ & ->)|(Hh & hid & -> & Ha)]%index_element_cases.
  - by split_and!.
  - apply assign_id_cases in Ha as (Hne & _ & Hcases). split_and!.
    + intros k Hk. by rewrite lookup_insert_ne.
    + done.
    + intros _. exists hid. rewrite lookup_insert_eq.
      split_and!; [done | done |]. intros ->.
      rewrite <- is_zendesk_generated_id_spec.
      destruct Hcases as [(-> & _)|(-> & Hrep & _)].
      * rewrite slug_chars_not_zendesk; [done|]. apply fresh_token.
      * unfold should_replace in Hrep. cbn in Hrep.
        apply orb_false_iff in Hrep as [_ ->]. done.
Qed.

(** X2: the indexer returns a document of the same shape and text.  Tags
    that are not headings keep all their attributes; a heading keeps every
    attribute but [id] and carries a non-empty [id], which does not match
    the editor-generated pattern when [replace_existing_ids] is set. *)
Theorem index_frame (lower : str → str) (soup : list node) (page_url : str)
    (flag : bool) :
  ∃ soup' rows m,
    add_heading_ids_and_collect lower soup page_url flag = Some (soup', rows, m)
    ∧ Forall2 (same_shape (id_frame flag)) soup soup'
    ∧ flat_map node_strings soup' = flat_map node_strings soup.
Proof.
  unfold add_heading_ids_and_collect.
  set (st0 := IndexerState (collect_ids (find_all soup)) ∅ [] ∅).
  destruct (visit_all_is_Some (index_element lower page_url flag) st0 soup)
    as [[st' soup'] E].
  { intros st el. apply index_element_is_Some. }
  exists soup', (rows st'), (id_map st'). rewrite E.
  split_and!; [done | | by apply visit_all_Some in E as [_ ?]].
  eapply visit_all_same_shape; [|exact E].
  intros ????. apply index_element_id_frame.
Qed.

(** ** Identifiers that are kept, and the keys of the identifier map *)

Section Kept.
Context (lower : str → str) (page_url : str) (flag : bool).

Lemma index_element_keeps st el st' a' :
  index_element lower page_url flag st el = Some (st', a') →
  keeps_id flag el (set_attrs a' el).
Proof.
  intros [(Hn & _)|(_ & hid & -> & Ha)]%index_element_cases Hh Hne Hrep;
    [done|].
  apply assign_id_cases in Ha as (_ & _ & [(_ & Hcur & Hflag & _)|(-> & _)]).
  - exfalso. destruct Hcur as [Hcur|Hz]; [done|].
    unfold should_replace in Hrep. rewrite Hz, orb_true_r, andb_true_r in Hrep.
    by apply Hne, Hflag.
  - cbn. by rewrite lookup_insert_eq.
Qed.

(** The keys of the map are identifiers that headings had, and there is
    none when [replace_existing_ids] is off. *)
Lemma index_element_keys st el st' a' :
  index_element lower page_url flag st el = Some (st', a') →
  (flag = false → id_map st' = id_map st)
  ∧ ∀ old, old ∈ dom (id_map st') →
      old ∈ dom (id_map st)
      ∨ (tag el ∈ HEADING_TAGS ∧ current_id (attrs el) = old).
Proof.
  intros [(_ & -> & _)|(Hh & hid & _ & Ha)]%index_element_cases;
    [by split; auto|].
  apply assign_id_cases in Ha as (_ & _ & [(_ & _ & Hflag & ->)|(_ & _ & ->)]);
    [|by split; auto].
  split.
  - intros ->%Hflag. done.
  - intros old. destruct (nonempty (current_id (attrs el))); [|by left].
    rewrite dom_insert_L, elem_of_union, elem_of_singleton.
    intros [->|?]; [by right | by left].
Qed.

Lemma each_index_keys els st st' out :
  each (index_element lower page_url flag) st els = Some (st', out) →
  (flag = false → id_map st' = id_map st)
  ∧ ∀ old, old ∈ dom (id_map st') →
      old ∈ dom (id_map st)
      ∨ ∃ el, el ∈ els ∧ tag el ∈ HEADING_TAGS ∧ current_id (attrs el) = old.
Proof.
  revert st out. induction els as [|el els IH]; intros st out; cbn [each].
  - intros [= <- <-]. by split; auto.
  - destruct (index_element _ _ _ st el) as [[st1 a']|] eqn:E;
      cbn [mbind option_bind]; [|done].
    destruct (each _ st1 els) as [[st2 out']|] eqn:E';
      cbn [mbind option_bind]; [|done].
    intros [= <- <-]. destruct (IH _ _ E') as (Hoff & Hkeys).
    apply index_element_keys in E as (Hoff1 & Hkeys1). split.
    + intros Hf. by rewrite Hoff, Hoff1.
    + intros old [Hold|(el' & Hin & Hh & Hc)]%Hkeys.
      * apply Hkeys1 in Hold as [?|[? ?]]; [by left|].
        right. exists el. split_and!; [apply list_elem_of_here | done | done].
      * right. exists el'. split_and!; [by apply list_elem_of_further | done | done].
Qed.

End Kept.

(** X3: a heading whose identifier is not empty and not to be replaced
    keeps it (trimmed); the keys of the identifier map are identifiers
    that headings of the input had; and with [replace_existing_ids] off
    the identifier map is empty. *)
Theorem index_keeps_ids (lower : str → str) (soup : list node)
    (page_url : str) (flag : bool) :
  ∃ soup' rows m,
    add_heading_ids_and_collect lower soup page_url flag = Some (soup', rows, m)
    ∧ Forall2 (keeps_id flag) (find_all soup) (find_all soup')
    ∧ (∀ old, old ∈ dom m →
         ∃ el, el ∈ find_all soup ∧ tag el ∈ HEADING_TAGS
               ∧ current_id (attrs el) = old)
    ∧ (flag = false → m = ∅).
Proof.
  destruct (index_run lower soup page_url flag) as (st' & soup' & E & Heach).
  exists soup', (rows st'), (id_map st'). split; [done|].
  destruct (each_index_keys _ _ _ _ _ _ _ Heach) as (Hoff & Hkeys).
  split_and!.
  - eapply each_Forall2; [|exact Heach].
    intros ????. apply index_element_keeps.
  - intros old [Hold|?]%Hkeys; [|done]. cbn in Hold. set_solver.
  - intros Hf. by rewrite Hoff.
Qed.

(** ** Running the indexer again *)

(** A string that neither begins nor ends with a character that goes is
    left alone by [strip]. *)
Lemma strip_fixed p s :
  (∀ c, head s = Some c → p c = false) →
  (∀ c, last s = Some c → p c = false) →
  strip p s = s.
Proof.
  intros Hh Hl. unfold strip, rstrip. rewrite (lstrip_id p s Hh).
  rewrite lstrip_id; [apply reverse_involutive|].
  intros c. rewrite head_reverse. apply Hl.
Qed.

Lemma strip_strip p s : strip p (strip p s) = strip p s.
Proof. apply strip_fixed; [apply strip_head | apply strip_last]. Qed.

Lemma same_shape_length R n n' :
  same_shape R n n' → length (node_elements n) = length (node_elements n').
Proof.
  revert n'. induction n as [t|t|name a kids IH] using node_ind';
    intros n' Hs; inversion Hs as [| |????? _ Hkids]; subst; [done | done |].
  cbn. f_equal. clear Hs.
  induction Hkids as [|k k' kids kids' Hk _ IHkids]; [done|].
  apply Forall_cons in IH as [IHk IH]. cbn.
  rewrite !length_app. f_equal; [by apply IHk | by apply IHkids].
Qed.

(** Two documents of the same shape whose tags have the same attributes,
    tag by tag in document order, are the same document. *)
Lemma same_shape_eq R n n' :
  same_shape R n n' →
  Forall2 (λ el el', attrs el' = attrs el) (node_elements n) (node_elements n') →
  n' = n.
Proof.
  revert n'. induction n as [t|t|name a kids IH] using node_ind';
    intros n' Hs; inversion Hs as [| |????? _ Hkids]; subst; [done | done |].
  cbn. intros Hall. apply Forall2_cons in Hall as [Ha Hall]. cbn in Ha. subst.
  f_equal. clear Hs.
  induction Hkids as [|k k' kids kids' Hk _ IHkids]; [done|].
  apply Forall_cons in IH as [IHk IH]. cbn in Hall.
  apply Forall2_app_inv in Hall as [H1 H2];
    [|by eapply same_shape_length].
  f_equal; [by apply IHk | by apply IHkids].
Qed.

Lemma same_shape_all_eq R soup soup' :
  Forall2 (same_shape R) soup soup' →
  find_all soup' = find_all soup →
  soup' = soup.
Proof.
  unfold find_all.
  induction 1 as [|n n' soup soup' Hn _ IH]; [done|]. cbn. intros Hall.
  assert (Forall2 (λ el el', attrs el' = attrs el)
            (node_elements n ++ flat_map node_elements soup)
            (node_elements n' ++ flat_map node_elements soup')) as HF.
  { rewrite Hall. by apply Forall_Forall2_diag, Forall_true. }
  apply Forall2_app_inv in HF as [H1 H2]; [|by eapply same_shape_length].
  pose proof (same_shape_eq _ _ _ Hn H1) as ->.
  apply app_inv_head in Hall. by rewrite (IH Hall).
Qed.

(** A loop that leaves the list of tags as it is leaves the tree so. *)
Lemma visit_all_fixed {S} (body : S → element → option (S * gmap str str))
    s soup s' soup' :
  visit_all body s soup = Some (s', soup') →
  find_all soup' = find_all soup →
  soup' = soup.
Proof.
  intros E. apply (same_shape_all_eq (λ _ _ _, True)).
  by eapply visit_all_same_shape; [|exact E].
Qed.

Lemma assign_id_kept lower flag title hid used idm :
  hid ≠ [] → should_replace flag hid = false →
  assign_id lower flag title hid used idm = (hid, {[hid]} ∪ used, idm).
Proof.
  intros Hne Hrep. unfold assign_id. rewrite Hrep.
  apply nonempty_true in Hne. by rewrite Hne.
Qed.

Section Again.
Context (lower : str → str) (page_url : str) (flag flag' : bool).
Context (Hflags : flag = true ∨ flag' = false).

(** The identifier that a run gives to a heading is one that a second run
    reads as it is and does not replace. *)
Lemma assign_id_settled title current used idm hid used' idm' :
  assign_id lower flag title (strip isspace current) used idm
  = (hid, used', idm') →
  strip isspace hid = hid ∧ should_replace flag' hid = false.
Proof.
  intros (Hne & _ & [(-> & _)|(-> & Hrep & _)])%assign_id_cases.
  - destruct (fresh_token lower title used) as (Hne' & _ & Hall). split.
    + apply strip_id. eapply Forall_impl; [exact Hall|].
      intros c. apply slug_char_not_space.
    + unfold should_replace. rewrite (slug_chars_not_zendesk _ Hall).
      apply nonempty_true in Hne'. rewrite Hne'. apply andb_false_r.
  - split; [apply strip_strip|].
    destruct Hflags as [->| ->]; [|done].
    unfold should_replace in *. cbn in Hrep. rewrite Hrep. apply andb_false_r.
Qed.

Lemma index_element_again st el st1 a' sx :
  index_element lower page_url flag st el = Some (st1, a') →
  stack sx = stack st →
  ∃ sx1,
    index_element lower page_url flag' sx (set_attrs a' el) = Some (sx1, a')
    ∧ stack sx1 = stack st1
    ∧ id_map sx1 = id_map sx
    ∧ ∃ new, rows st1 = rows st ++ new ∧ rows sx1 = rows sx ++ new.
Proof.
  unfold index_element. cbn [tag set_attrs]. intros E Hstack.
  case_bool_decide as Hh.
  - destruct (heading_level_tags _ Hh) as (lvl & Hlvl & _).
    rewrite (index_heading_eq _ _ _ _ _ lvl Hlvl) in E. cbn zeta in E.
    rewrite (index_heading_eq _ _ _ _ (set_attrs a' el) lvl Hlvl). cbn zeta.
    rewrite get_text_set_attrs. cbn [attrs set_attrs].
    destruct (assign_id lower flag _ _ _ _) as [[hid used'] idm'] eqn:Ea.
    cbn in E. injection E as <- <-.
    pose proof Ea as (Hne & _)%assign_id_cases.
    apply assign_id_settled in Ea as [Hstrip Hrep].
    assert (current_id (<[ID := hid]> (attrs el)) = hid) as ->.
    { unfold current_id. by rewrite lookup_insert_eq. }
    rewrite (assign_id_kept _ _ _ _ _ _ Hne Hrep). cbn.
    rewrite insert_insert_eq, Hstack.
    eexists. split; [done|]. cbn. split_and!; [done | done |].
    by eexists.
  - injection E as <- <-. exists sx. split_and!; [done | done | done |].
    exists []. by rewrite !app_nil_r.
Qed.

Lemma each_index_again els st out st1 sx :
  each (index_element lower page_url flag) st els = Some (st1, out) →
  stack sx = stack st →
  ∃ sx1,
    each (index_element lower page_url flag') sx out = Some (sx1, out)
    ∧ id_map sx1 = id_map sx
    ∧ ∃ new, rows st1 = rows st ++ new ∧ rows sx1 = rows sx ++ new.
Proof.
  revert st out sx. induction els as [|el els IH]; intros st out sx; cbn [each].
  - intros [= <- <-] _. exists sx. split_and!; [done | done |].
    exists []. by rewrite !app_nil_r.
  - destruct (index_element _ _ _ st el) as [[st2 a']|] eqn:E;
      cbn [mbind option_bind]; [|done].
    destruct (each _ st2 els) as [[st3 out']|] eqn:E';
      cbn [mbind option_bind]; [|done].
    intros [= <- <-] Hstack.
    destruct (index_element_again _ _ _ _ sx E Hstack)
      as (sx2 & E2 & Hstack2 & Hmap2 & new2 & Hr2 & Hrx2).
    destruct (IH _ _ sx2 E' Hstack2) as (sx3 & E3 & Hmap3 & new3 & Hr3 & Hrx3).
    exists sx3. cbn [each]. rewrite E2. cbn [mbind option_bind].
    rewrite E3. cbn [mbind option_bind]. split_and!.
    + by destruct el.
    + by rewrite Hmap3.
    + exists (new2 ++ new3). by rewrite Hr3, Hrx3, Hr2, Hrx2, !app_assoc.
Qed.

End Again.

(** X4: the indexer is idempotent.  On the document that a first run
    returns, a second run with the same page URL returns the same document
    and the same rows, and an empty identifier map, as long as the second
    run does not turn [replace_existing_ids] on after a first run that had
    it off. *)
Theorem index_twice (lower : str → str) (soup : list node) (page_url : str)
    (flag flag' : bool) :
  flag = true ∨ flag' = false →
  ∃ soup1 rows m,
    add_heading_ids_and_collect lower soup page_url flag = Some (soup1, rows, m)
    ∧ add_heading_ids_and_collect lower soup1 page_url flag'
      = Some (soup1, rows, ∅).
Proof.
  intros Hflags.
  destruct (index_run lower soup page_url flag) as (st1 & soup1 & E1 & Heach1).
  exists soup1, (rows st1), (id_map st1). split; [done|].
  unfold add_heading_ids_and_collect.
  set (sx := IndexerState (collect_ids (find_all soup1)) ∅ [] ∅).
  destruct (each_index_again lower page_url flag flag' Hflags _ _ _ _ sx Heach1)
    as (sx1 & Ex & Hmap & new & Hr & Hrx); [done|].
  destruct (visit_all_is_Some (index_element lower page_url flag') sx soup1)
    as [[sx2 soup2] E2].
  { intros st el. apply index_element_is_Some. }
  rewrite E2. cbn.
  pose proof (visit_all_Some _ _ _ _ _ E2) as [Heach2 _].
  rewrite Ex in Heach2. injection Heach2 as <- Hfind.
  rewrite (visit_all_fixed _ _ _ _ _ E2 (eq_sym Hfind)).
  cbn in Hr, Hrx. by rewrite Hr, Hrx, Hmap.
Qed.

(** The end-to-end scenario, indexed twice with the flag on. *)
Lemma index_twice_witness :
  ∃ soup1 rows m,
    add_heading_ids_and_collect ascii_lower scenario [] true
    = Some (soup1, rows, m)
    ∧ add_heading_ids_and_collect ascii_lower soup1 [] true
      = Some (soup1, rows, ∅).
Proof.
  apply (index_twice ascii_lower scenario [] true true).
  left. reflexivity.
Defined.

(** ** Links that are not reported *)

Lemma startswith_app c base rest :
  base ≠ [] → startswith c (base ++ rest) = startswith c base.
Proof. by destruct base. Qed.



(** X6: an anchor into another page is flagged only when it looks
    editor-generated.  When the [href] begins with something else than a
    hash and the text after its last hash does not match the pattern, the
    rewriter records no broken link; and when that text is no key of the
    map either, the link is left as it is and not counted. *)
Theorem rewrite_link_external (m : gmap str str) (ids : gset str)
    (st : rewriter_state) (a : element) (base frag : str) :
  attrs a !! HREF = Some (base ++ HASH :: frag) →
  HASH ∉ frag →
  base ≠ [] →
  startswith HASH base = false →
  is_zendesk_generated_id frag = false →
  ∃ st' a',
    rewrite_link m ids st a = Some (st', a')
    ∧ broken st' = broken st
    ∧ (m !! frag = None →
       a' = attrs a ∧ changed_count st' = changed_count st).
Proof.
  intros Ha Hno Hne Hbase Hz. rewrite rewrite_link_eq.
  assert (split_last HASH (base ++ HASH :: frag) = Some (base, frag)) as Hs
    by (by apply split_last_Some).
  destruct (retargeted m (attrs a)) as [new_href|] eqn:Er.
  - eexists _, _. split_and!; [done | done |]. intros Hm.
    apply retargeted_Some in Er as (href & b & f & new & Hh & Hs' & _ & Hm' & _).
    rewrite Ha in Hh. injection Hh as <-. rewrite Hs in Hs'.
    injection Hs' as <- <-. congruence.
  - eexists _, _. split_and!; [done | | done]. cbn.
    unfold reported, track_internal. rewrite Ha. cbn [default from_option id].
    rewrite Hs, Hz, andb_false_r.
    by rewrite (startswith_app _ _ _ Hne), Hbase.
Qed.

(** The anchor of the design note: [other.html#real-typo]. *)
Lemma rewrite_link_external_witness :
  ∃ st' a',
    rewrite_link ∅ ∅ (RewriterState 0 [])
      (Element A {[HREF := py "other.html#real-typo"]} [py "see"])
    = Some (st', a')
    ∧ broken st' = []
    ∧ a' = {[HREF := py "other.html#real-typo"]}
    ∧ changed_count st' = 0%nat.
Proof.
  destruct (rewrite_link_external ∅ ∅ (RewriterState 0 [])
              (Element A {[HREF := py "other.html#real-typo"]} [py "see"])
              (py "other.html") (py "real-typo"))
    as (st' & a' & E & Hb & Hm).
  - reflexivity.
  - apply (bool_decide_unpack _). vm_compute. exact I.
  - done.
  - reflexivity.
  - reflexivity.
  - exists st', a'. destruct (Hm (lookup_empty _)) as [-> Hc].
    by split_and!.
Defined.

(** ** What the rewriter reports and counts *)

Lemma retargeted_None_href m a href :
  retargeted m a = None → a !! HREF = Some href →
  rewrite_anchor_href href m = Some (href, false).
Proof.
  unfold retargeted. intros Hr Ha. rewrite Ha in Hr. cbn in Hr.
  rewrite rewrite_anchor_href_eq.
  destruct (split_last HASH href) as [[base frag]|]; cbn in Hr; [|done].
  destruct (m !! frag) as [new|]; cbn in Hr; [|done].
  by destruct (nonempty frag).
Qed.

(** The two checks add at most two records, both for the link itself. *)
Lemma reported_extra m ids a b0 :
  tag a = A → retargeted m (attrs a) = None →
  ∃ extra, reported ids a b0 = b0 ++ extra
           ∧ (length extra ≤ 2)%nat
           ∧ ∀ b, b ∈ extra → reports m a b.
Proof.
  intros Htag Hr. unfold reported, track_internal.
  destruct (attrs a !! HREF) as [href|] eqn:Ha; cbn [default from_option id].
  - assert (∀ b, b = BrokenLink href (get_text (py " ") a) →
                 HASH ∈ href → reports m a b) as Hrep.
    { intros b -> Hin. unfold reports. cbn.
      split_and!; try done. by apply retargeted_None_href with (attrs a). }
    assert (startswith HASH href = true → HASH ∈ href) as Hstart.
    { destruct href as [|c href]; cbn; [done|].
      intros ->%N.eqb_eq. apply list_elem_of_here. }
    assert (is_Some (split_last HASH href) → HASH ∈ href) as Hsplit.
    { intros ?%split_last_contains. by apply contains_spec. }
    set (r := BrokenLink href (get_text (py " ") a)) in *.
    destruct (startswith HASH href) eqn:Es;
      [destruct (nonempty (drop 1 href) && _) eqn:E1|];
      (destruct (split_last HASH href) as [[base frag]|] eqn:E2;
       [destruct (nonempty frag && _ && _) eqn:E3|]).
    all: first
      [ exists [r; r]; split; [by rewrite <- app_assoc|]
      | exists [r]; split; [done|]
      | exists []; split; [by rewrite app_nil_r|] ].
    all: split; [cbn; lia|].
    all: intros b Hb; apply Hrep;
      [ set_solver | first [by apply Hstart | by apply Hsplit; eauto | set_solver] ].
  - exists []. cbn. rewrite app_nil_r. split_and!; [done | lia | set_solver].
Qed.

Lemma rewrite_element_report m ids st el st' a' :
  rewrite_element m ids st el = Some (st', a') →
  (tag el ≠ A ∧ st' = st)
  ∨ (tag el = A ∧ changed_count st' = S (changed_count st)
     ∧ broken st' = broken st)
  ∨ (tag el = A ∧ changed_count st' = changed_count st
     ∧ ∃ extra, broken st' = broken st ++ extra
                ∧ (length extra ≤ 2)%nat
                ∧ ∀ b, b ∈ extra → reports m el b).
Proof.
  unfold rewrite_element. case_bool_decide as Ha.
  - rewrite rewrite_link_eq.
    destruct (retargeted m (attrs el)) as [new_href|] eqn:Er.
    + intros [= <- _]. right. left. by split_and!.
    + intros [= <- _]. right. right. cbn. split_and!; [done | done |].
      by apply reported_extra.
  - intros [= <- _]. by left.
Qed.

Lemma each_rewrite_reports m ids els st st' out :
  each (rewrite_element m ids) st els = Some (st', out) →
  ∃ extra,
    broken st' = broken st ++ extra
    ∧ (∀ b, b ∈ extra → ∃ el, el ∈ els ∧ reports m el b)
    ∧ (length extra + 2 * changed_count st'
       ≤ 2 * changed_count st
         + 2 * length (filter (λ el, tag el = A) els))%nat.
Proof.
  revert st out. induction els as [|el els IH]; intros st out; cbn [each].
  - intros [= <- <-]. exists []. rewrite app_nil_r.
    split_and!; [done | set_solver | cbn; lia].
  - destruct (rewrite_element m ids st el) as [[st1 a']|] eqn:E;
      cbn [mbind option_bind]; [|done].
    destruct (each _ st1 els) as [[st2 out']|] eqn:E';
      cbn [mbind option_bind]; [|done].
    intros [= <- <-].
    destruct (IH _ _ E') as (extra2 & Hb2 & Hfrom2 & Hlen2).
    assert (∀ b, b ∈ extra2 → ∃ el0, el0 ∈ el :: els ∧ reports m el0 b) as Hfrom.
    { intros b (el0 & ? & ?)%Hfrom2. exists el0.
      split; [by apply list_elem_of_further | done]. }
    apply rewrite_element_report in E
      as [(Hn & ->)|[(Ha & Hc & Hb)|(Ha & Hc & extra1 & Hb & Hlen1 & Hfrom1)]].
    + exists extra2. rewrite filter_cons_False by done. by split_and!.
    + exists extra2. rewrite filter_cons_True by done.
      rewrite Hb2, Hb. split_and!; [done | done |]. cbn [length]. lia.
    + exists (extra1 ++ extra2). rewrite filter_cons_True by done.
      rewrite Hb2, Hb, <- app_assoc. split_and!; [done | |].
      * intros b [Hin|Hin]%elem_of_app; [|by apply Hfrom].
        exists el. split; [apply list_elem_of_here | by apply Hfrom1].
      * rewrite length_app. cbn [length]. lia.
Qed.

(** X7: every broken link record comes from an [a] tag of the document:
    it has the [href] and the text of the tag, the [href] has a hash, and
    the link is one that the map does not rewrite.  A link is counted as
    changed or gives at most two records, never both. *)
Theorem rewrite_reports (soup : list node) (m : gmap str str) :
  ∃ soup' n broken,
    rewrite_cross_references soup m = Some (soup', n, broken)
    ∧ (∀ b, b ∈ broken → ∃ el, el ∈ find_all soup ∧ reports m el b)
    ∧ (length broken + 2 * n
       ≤ 2 * length (filter (λ el, tag el = A) (find_all soup)))%nat.
Proof.
  destruct (rewrite_run soup m) as (st' & soup' & E & Heach & _).
  exists soup', (changed_count st'), (broken st'). split; [done|].
  destruct (each_rewrite_reports _ _ _ _ _ _ Heach)
    as (extra & Hb & Hfrom & Hlen).
  cbn in Hb, Hlen. rewrite Hb. split; [done | lia].
Qed.

(** ** Passes of the rewriter that change nothing *)

Lemma each_rewrite_fixed m ids els st :
  (∀ el, el ∈ els → tag el = A → retargeted m (attrs el) = None) →
  ∃ st', each (rewrite_element m ids) st els = Some (st', els)
         ∧ changed_count st' = changed_count st.
Proof.
  revert st. induction els as [|el els IH]; intros st Hnone; cbn [each].
  - by exists st.
  - assert (∃ st1, rewrite_element m ids st el = Some (st1, attrs el)
                   ∧ changed_count st1 = changed_count st) as (st1 & -> & Hc1).
    { unfold rewrite_element. case_bool_decide as Ha; [|by exists st].
      rewrite rewrite_link_eq, (Hnone el (list_elem_of_here _ _) Ha).
      by eexists. }
    cbn [mbind option_bind].
    destruct (IH st1) as (st2 & -> & Hc2).
    { intros el' Hin. by apply Hnone, list_elem_of_further. }
    cbn [mbind option_bind]. exists st2. rewrite set_attrs_id.
    split; [done | congruence].
Qed.

Lemma rewrite_fixed soup m :
  (∀ el, el ∈ find_all soup → tag el = A → retargeted m (attrs el) = None) →
  ∃ broken, rewrite_cross_references soup m = Some (soup, 0%nat, broken).
Proof.
  intros Hnone. unfold rewrite_cross_references.
  set (ids := collect_ids (find_all soup)).
  destruct (each_rewrite_fixed m ids (find_all soup) (RewriterState 0 []) Hnone)
    as (st' & Heach & Hc).
  destruct (visit_all_is_Some (rewrite_element m ids) (RewriterState 0 []) soup)
    as [[st2 soup2] E].
  { intros st el. apply rewrite_element_is_Some. }
  rewrite E. cbn.
  pose proof (visit_all_Some _ _ _ _ _ E) as [Heach2 _].
  rewrite Heach in Heach2. injection Heach2 as <- Hfind.
  rewrite (visit_all_fixed _ _ _ _ _ E (eq_sym Hfind)), Hc. by eexists.
Qed.

(** X8: with an empty identifier map the rewriter returns the document as
    it is and counts no change. *)
Theorem rewrite_empty_map (soup : list node) :
  ∃ broken, rewrite_cross_references soup ∅ = Some (soup, 0%nat, broken).
Proof.
  apply rewrite_fixed. intros el _ _. unfold retargeted.
  destruct (attrs el !! HREF) as [href|]; cbn; [|done].
  destruct (split_last HASH href) as [[base frag]|]; cbn; [|done].
  by rewrite lookup_empty.
Qed.

Lemma rewrite_element_settled m ids st el st' a' :
  (∀ old new, m !! old = Some new → (HASH ∉ new) ∧ new ∉ dom m) →
  rewrite_element m ids st el = Some (st', a') →
  tag el = A → retargeted m a' = None.
Proof.
  intros Hm E Ha. unfold rewrite_element in E.
  rewrite bool_decide_eq_true_2, rewrite_link_eq in E by done.
  destruct (retargeted m (attrs el)) as [new_href|] eqn:Er.
  - injection E as _ <-.
    apply retargeted_Some in Er as (href & base & frag & new & _ & _ & _ & Hf & ->).
    destruct (Hm _ _ Hf) as [Hno Hkey].
    unfold retargeted. rewrite lookup_insert_eq. cbn.
    assert (split_last HASH (base ++ HASH :: new) = Some (base, new)) as ->
      by (by apply split_last_Some).
    cbn. apply not_elem_of_dom in Hkey. by rewrite Hkey.
  - by injection E as _ <-.
Qed.

(** X9: rewriting is idempotent when no new identifier of the map has a
    hash or is itself a key of the map: a second pass with the same map
    returns the document of the first pass and counts no change. *)
Theorem rewrite_twice (soup : list node) (m : gmap str str) :
  (∀ old new, m !! old = Some new → (HASH ∉ new) ∧ new ∉ dom m) →
  ∃ soup' n broken broken',
    rewrite_cross_references soup m = Some (soup', n, broken)
    ∧ rewrite_cross_references soup' m = Some (soup', 0%nat, broken').
Proof.
  intros Hm. destruct (rewrite_run soup m) as (st' & soup' & E & Heach & _).
  destruct (rewrite_fixed soup' m) as [broken' E'].
  - intros el' Hin Ha.
    assert (Forall2 (λ el el', tag el' = A → retargeted m (attrs el') = None)
              (find_all soup) (find_all soup')) as HF.
    { eapply each_Forall2; [|exact Heach].
      intros st el st1 a' Hel. cbn. by eapply rewrite_element_settled. }
    apply list_elem_of_lookup in Hin as [i Hi].
    destruct (Forall2_lookup_r _ _ _ _ _ HF Hi) as (el & _ & H). by apply H.
  - by exists soup', (changed_count st'), (broken st'), broken'.
Qed.

(** A map of one renaming, on the end-to-end scenario. *)
Lemma rewrite_twice_witness :
  ∃ soup' n broken broken',
    rewrite_cross_references scenario {[ZD_ID := py "getting-started"]}
    = Some (soup', n, broken)
    ∧ rewrite_cross_references soup' {[ZD_ID := py "getting-started"]}
      = Some (soup', 0%nat, broken').
Proof.
  apply (rewrite_twice scenario {[ZD_ID := py "getting-started"]}).
  intros old new [<- <-]%lookup_singleton_Some. split.
  - apply (bool_decide_unpack _). vm_compute. exact I.
  - rewrite dom_singleton_L, not_elem_of_singleton.
    intros H. by vm_compute in H.
Defined.

(** ** The format of a slug *)

Lemma no_double_cons c s :
  no_double (c :: s) → no_double s.
Proof. destruct s; [done | by intros [_ ?]]. Qed.

Lemma no_double_app_r pre s : no_double (pre ++ s) → no_double s.
Proof.
  induction pre as [|c pre IH]; [done|]. intros H. apply IH.
  by apply no_double_cons in H.
Qed.

Lemma no_double_app_l s suf : no_double (s ++ suf) → no_double s.
Proof.
  induction s as [|c s IH]; [done|]. cbn [app]. intros H.
  pose proof (IH (no_double_cons _ _ H)) as Hs.
  destruct s as [|d s]; [done|]. cbn in H. by destruct H as [? _].
Qed.

Lemma no_double_strip p s : no_double s → no_double (strip p s).
Proof.
  intros H. unfold strip.
  destruct (lstrip_split p s) as (pre & E1 & _).
  destruct (rstrip_split p (lstrip p s)) as (suf & E2 & _).
  rewrite E1 in H. apply no_double_app_r in H. rewrite E2 in H.
  by apply no_double_app_l in H.
Qed.

(** A run that has been replaced already is followed by a letter or a
    digit, or by nothing. *)
Lemma sub_runs_true_head s c :
  head (sub_runs true s) = Some c → not_alnum c = false.
Proof.
  induction s as [|x s IH]; cbn; [done|].
  destruct (not_alnum x) eqn:E; [done|]. cbn. congruence.
Qed.

Lemma no_double_sub_runs b s : no_double (sub_runs b s).
Proof.
  revert b. induction s as [|c s IH]; intros b; cbn [sub_runs]; [done|].
  destruct (not_alnum c) eqn:E.
  - destruct b; [apply IH|].
    pose proof (IH true) as Hs. pose proof (sub_runs_true_head s) as Hh.
    destruct (sub_runs true s) as [|d rest]; [done|]. split; [|done].
    intros [_ ->]. by specialize (Hh HYPHEN eq_refl).
  - pose proof (IH false) as Hs.
    destruct (sub_runs false s) as [|d rest]; [done|]. split; [|done].
    intros [-> _]. done.
Qed.

(** The substitution for runs of hyphens finds nothing to replace in a
    string that has no two hyphens in a row. *)
Lemma sub_hyphens_id s : no_double s → sub_hyphens s = s.
Proof.
  induction s as [|c s IH]; [done|]. intros H.
  pose proof (IH (no_double_cons _ _ H)) as Hs.
  cbn [sub_hyphens]. destruct s as [|d s]; [done|].
  destruct H as [Hcd _].
  destruct ((c =? HYPHEN) && (d =? HYPHEN)) eqn:E; [|by rewrite Hs].
  apply andb_true_iff in E as [?%N.eqb_eq ?%N.eqb_eq]. by destruct Hcd.
Qed.

Lemma no_double_slugify lower text : no_double (slugify lower text).
Proof.
  rewrite slugify_normalized. destruct (nonempty _).
  - unfold normalized. apply no_double_strip.
    rewrite sub_hyphens_id; apply no_double_sub_runs.
  - vm_compute. by repeat split; intros [? ?].
Qed.

(** A slug neither begins nor ends with a hyphen. *)
Lemma slugify_ends lower text :
  (∀ c, head (slugify lower text) = Some c → (HYPHEN =? c) = false)
  ∧ (∀ c, last (slugify lower text) = Some c → (HYPHEN =? c) = false).
Proof.
  rewrite slugify_normalized. destruct (nonempty _).
  - split; intros c; [apply strip_head | apply strip_last].
  - split; intros c; vm_compute; by intros [= <-].
Qed.

(** X10: a slug never has two hyphens in a row; and the third substitution
    of [slugify], for runs of two or more hyphens, never changes the text
    that the second substitution returned. *)
Theorem slugify_no_double (lower : str → str) (text : str) :
  no_double (slugify lower text)
  ∧ ∀ s, sub_hyphens (sub_runs false s) = sub_runs false s.
Proof.
  split; [apply no_double_slugify|].
  intros s. apply sub_hyphens_id, no_double_sub_runs.
Qed.

(** A string of slug characters without two hyphens in a row is what the
    substitution for the runs returns on it. *)
Lemma sub_runs_id s :
  Forall (λ c, slug_char c = true) s → no_double s →
  sub_runs false s = s
  ∧ (head s ≠ Some HYPHEN → sub_runs true s = s).
Proof.
  induction s as [|c s IH]; [done|]. intros Hall Hnd.
  apply Forall_cons in Hall as [Hc Hall].
  destruct (IH Hall (no_double_cons _ _ Hnd)) as [IHf IHt].
  cbn [sub_runs]. destruct (not_alnum c) eqn:E.
  - assert (c = HYPHEN) as -> by (revert Hc E; chars).
    split; [|by intros H].
    rewrite IHt; [done|]. destruct s as [|d s]; [done|].
    destruct Hnd as [Hcd _]. cbn. intros [= ->]. by apply Hcd.
  - by rewrite IHf.
Qed.

Lemma sub_nbsp_id s :
  Forall (λ c, slug_char c = true) s → sub_nbsp s = s.
Proof.
  unfold sub_nbsp. induction 1 as [|c s Hc _ IH]; [done|]. cbn.
  rewrite IH. destruct (N.eqb_spec c NBSP) as [->|]; [done | done].
Qed.

(** X11: [slugify] is idempotent, for every lowering that leaves strings
    of lowercase letters, digits and hyphens alone (as [str.lower] does):
    the slug of a slug is the slug. *)
Theorem slugify_idempotent (lower : str → str) (text : str) :
  (∀ s, Forall (λ c, slug_char c = true) s → lower s = s) →
  slugify lower (slugify lower text) = slugify lower text.
Proof.
  intros Hlower.
  pose proof (Forall_slugify lower text) as Hall.
  pose proof (slugify_nonempty lower text) as Hne.
  pose proof (no_double_slugify lower text) as Hnd.
  destruct (slugify_ends lower text) as [Hhead Hlast].
  set (s := slugify lower text) in *.
  rewrite (slugify_normalized lower s). unfold normalized.
  rewrite (strip_id isspace s).
  - rewrite (Hlower s Hall), (sub_nbsp_id s Hall).
    destruct (sub_runs_id s Hall Hnd) as [-> _].
    rewrite (sub_hyphens_id s Hnd), (strip_fixed _ s Hhead Hlast).
    apply nonempty_true in Hne. by rewrite Hne.
  - eapply Forall_impl; [exact Hall|]. intros c. apply slug_char_not_space.
Qed.

(** Lowering ASCII text leaves slug characters alone. *)
Lemma ascii_lower_slug s :
  Forall (λ c, slug_char c = true) s → ascii_lower s = s.
Proof.
  unfold ascii_lower. induction 1 as [|c s Hc _ IH]; [done|]. cbn.
  rewrite IH, (slug_char_not_upper c Hc). done.
Qed.

Lemma slugify_idempotent_witness :
  slugify ascii_lower (slugify ascii_lower (py "  Getting -- Started!"))
  = slugify ascii_lower (py "  Getting -- Started!").
Proof.
  apply (slugify_idempotent ascii_lower (py "  Getting -- Started!")).
  exact ascii_lower_slug.
Defined.

(** ** Successive allocations *)

Lemma allocate_all_cons base bases used :
  allocate_all (base :: bases) used
  = (fst (unique_id base used)
       :: fst (allocate_all bases (snd (unique_id base used))),
     snd (allocate_all bases (snd (unique_id base used)))).
Proof.
  cbn [allocate_all]. destruct (unique_id base used) as [token used1].
  cbn. by destruct (allocate_all bases used1).
Qed.

(** X12: identifiers allocated one after the other are pairwise distinct
    and none of them was in use before; the set of used identifiers ends as
    the initial set and the allocated tokens. *)
Theorem allocate_all_distinct (bases : list str) (used : gset str) :
  NoDup (fst (allocate_all bases used))
  ∧ (∀ token, token ∈ fst (allocate_all bases used) → token ∉ used)
  ∧ snd (allocate_all bases used)
    = list_to_set (fst (allocate_all bases used)) ∪ used.
Proof.
  revert used. induction bases as [|base bases IH]; intros used.
  - cbn. split_and!; [constructor | by intros ? ?%elem_of_nil | set_solver].
  - rewrite allocate_all_cons. cbn [fst snd]. rewrite unique_id_used.
    pose proof (unique_id_fresh base used) as Hf.
    set (token0 := fst (unique_id base used)) in *.
    destruct (IH ({[token0]} ∪ used)) as (Hnd & Hfresh & Hused).
    split_and!.
    + apply NoDup_cons. split; [|done].
      intros Hin. apply (Hfresh _ Hin). set_solver.
    + intros token [->|Hin]%elem_of_cons; [done|].
      specialize (Hfresh _ Hin). set_solver.
    + rewrite Hused. cbn. set_solver.
Qed.

Lemma suffixed_neq_base (base : str) (i : nat) : suffixed base i ≠ base.
Proof.
  unfold suffixed. intros H. apply (f_equal length) in H.
  rewrite length_app in H. cbn in H. lia.
Qed.

(** With [base] and [base-2], ..., [base-k] in use and no higher suffix in
    use, the next token is [base-(k+1)]. *)
Lemma unique_id_next (base : str) (used : gset str) (k : nat) :
  (1 ≤ k)%nat → base ∈ used →
  (∀ j, (2 ≤ j ≤ k)%nat → suffixed base j ∈ used) →
  (∀ j, (k < j)%nat → suffixed base j ∉ used) →
  fst (unique_id base used) = suffixed base (S k).
Proof.
  intros Hk Hbase Hin Hout. unfold unique_id.
  rewrite decide_False by (by intros ?). cbv zeta. cbn [fst]. f_equal.
  set (p := probe (S (size used)) base used 2).
  pose proof (probe_ge (S (size used)) base used 2) as Hge.
  pose proof (probe_free base used 2) as Hfree.
  pose proof (probe_below (S (size used)) base used 2) as Hbelow.
  fold p in Hge, Hfree, Hbelow.
  destruct (decide (p ≤ k)%nat) as [Hle|Hgt].
  { exfalso. apply Hfree, Hin. lia. }
  destruct (decide (S k < p)%nat) as [Hlt|]; [|lia].
  exfalso. apply (Hout (S k)); [lia|]. apply Hbelow; lia.
Qed.

Lemma allocate_all_from (base : str) (n : nat) : ∀ (used : gset str) (k : nat),
  (1 ≤ k)%nat → base ∈ used →
  (∀ j, (2 ≤ j ≤ k)%nat → suffixed base j ∈ used) →
  (∀ j, (k < j)%nat → suffixed base j ∉ used) →
  fst (allocate_all (replicate n base) used) = suffixed base <$> seq (S k) n.
Proof.
  induction n as [|n IH]; intros used k Hk Hbase Hin Hout; [done|].
  cbn [replicate]. rewrite allocate_all_cons. cbn [fst seq fmap list_fmap].
  rewrite unique_id_used, (unique_id_next base used k) by done.
  f_equal. apply IH; [lia | set_solver | |].
  - intros j Hj. destruct (decide (j = S k)) as [->|]; [set_solver|].
    apply elem_of_union. right. apply Hin. lia.
  - intros j Hj [Heq%elem_of_singleton|Hu]%elem_of_union.
    + apply suffixed_inj in Heq. lia.
    + apply (Hout j); [lia | done].
Qed.

(** X13: calls for the same base, on a set that has neither the base nor
    any suffixed variant of it, return the base and then the suffixes 2, 3,
    ... in order, with no gap. *)
Theorem allocate_all_same (base : str) (used : gset str) (n : nat) :
  base ∉ used →
  (∀ j, suffixed base j ∉ used) →
  fst (allocate_all (replicate (S n) base) used)
  = base :: (suffixed base <$> seq 2 n).
Proof.
  intros Hbase Hnone. cbn [replicate]. rewrite allocate_all_cons. cbn [fst].
  assert (unique_id base used = (base, {[base]} ∪ used)) as ->.
  { unfold unique_id. by rewrite decide_True. }
  cbn [fst snd]. f_equal. apply (allocate_all_from base n _ 1); [lia | set_solver | |].
  - intros j Hj. lia.
  - intros j Hj [Heq%elem_of_singleton|Hu]%elem_of_union.
    + by apply suffixed_neq_base in Heq.
    + by apply (Hnone j).
Qed.

(** Three headings titled Notes in a document without identifiers. *)
Lemma allocate_all_same_witness :
  fst (allocate_all (replicate 3 (py "notes")) ∅)
  = [py "notes"; py "notes-2"; py "notes-3"].
Proof.
  rewrite (allocate_all_same (py "notes") ∅ 2).
  - reflexivity.
  - apply not_elem_of_empty.
  - intros j. apply not_elem_of_empty.
Defined.

(** ** Cleaning *)

Example clean_raw_page :
  clean_html true raw_page
  = [ HTag (py "h1") {[ID := ZD_ID]} [HText (py "Go !")];
      HTag A {[HREF := py "#x"]} [HText (py "x")] ].
Proof. vm_compute. reflexivity. Qed.

Lemma html_ind' {V} (P : html V → Prop) :
  (∀ s, P (HText s)) →
  (∀ s, P (HComment s)) →
  (∀ name a kids, Forall P kids → P (HTag name a kids)) →
  ∀ n, P n.
Proof.
  intros HText' HComment' HTag'. fix IH 1.
  intros [s|s|name a kids]; [apply HText' | apply HComment' |].
  apply HTag'. induction kids as [|k kids IHkids]; constructor.
  - apply IH.
  - apply IHkids.
Qed.

Lemma filter_flat_map {X Y} (P : Y → Prop) `{∀ y, Decision (P y)}
    (f : X → list Y) (l : list X) :
  filter P (flat_map f l) = flat_map (λ x, filter P (f x)) l.
Proof.
  induction l as [|x l IH]; [done|]. cbn. by rewrite filter_app, IH.
Qed.

Lemma flat_map_flat_map {X Y Z} (f : X → list Y) (g : Y → list Z) (l : list X) :
  flat_map g (flat_map f l) = flat_map (λ x, flat_map g (f x)) l.
Proof.
  induction l as [|x l IH]; [done|]. cbn. by rewrite flat_map_app, IH.
Qed.

Lemma flat_map_ext_Forall {X Y} (f g : X → list Y) (l : list X) :
  Forall (λ x, f x = g x) l → flat_map f l = flat_map g l.
Proof. induction 1 as [|x l Hx _ IH]; [done|]. cbn. by rewrite Hx, IH. Qed.

Lemma flat_map_singleton {X} (f : X → list X) (l : list X) :
  Forall (λ x, f x = [x]) l → flat_map f l = l.
Proof. induction 1 as [|x l Hx _ IH]; [done|]. cbn. by rewrite Hx, IH. Qed.

Lemma fmap_id_Forall {X} (f : X → X) (l : list X) :
  Forall (λ x, f x = x) l → f <$> l = l.
Proof. induction 1 as [|x l Hx _ IH]; [done|]. cbn. by rewrite Hx, IH. Qed.

Lemma Forall_conj {X} (P Q : X → Prop) (l : list X) :
  Forall P l → Forall Q l → Forall (λ x, P x ∧ Q x) l.
Proof. intros. by apply Forall_and. Qed.

Section Cleaning.
Context {V : Type}.
Implicit Types (n : html V) (d kids : list (html V)) (k : kind V).

(** *** The nodes that each pass leaves *)

Lemma nodes_extract_comments n :
  flat_map nodes (extract_comments n)
  = filter (λ k, ¬ is_comment k) (nodes n).
Proof.
  induction n as [s|s|name a kids IH] using html_ind'; [done | done |].
  cbn [extract_comments nodes flat_map].
  rewrite app_nil_r, filter_cons_True by (by intros ?). f_equal.
  rewrite flat_map_flat_map, filter_flat_map. by apply flat_map_ext_Forall.
Qed.

Lemma nodes_extract_comments_all d :
  flat_map nodes (flat_map extract_comments d)
  = filter (λ k, ¬ is_comment k) (flat_map nodes d).
Proof.
  rewrite flat_map_flat_map, filter_flat_map. apply flat_map_ext_Forall.
  apply Forall_true, nodes_extract_comments.
Qed.

Lemma nodes_unwrap tag_name n :
  flat_map nodes (unwrap tag_name n)
  = filter (λ k, ¬ is_tag tag_name k) (nodes n).
Proof.
  induction n as [s|s|name a kids IH] using html_ind'; [done | done |].
  assert (flat_map nodes (flat_map (unwrap tag_name) kids)
          = filter (λ k, ¬ is_tag tag_name k) (flat_map nodes kids)) as Hkids.
  { rewrite flat_map_flat_map, filter_flat_map. by apply flat_map_ext_Forall. }
  cbn [unwrap nodes]. case_bool_decide as Hname.
  - rewrite filter_cons_False by (by intros H; apply H). done.
  - rewrite filter_cons_True by (by intros ?). cbn [flat_map nodes].
    by rewrite app_nil_r, Hkids.
Qed.

Lemma nodes_unwrap_all tag_name d :
  flat_map nodes (flat_map (unwrap tag_name) d)
  = filter (λ k, ¬ is_tag tag_name k) (flat_map nodes d).
Proof.
  rewrite flat_map_flat_map, filter_flat_map. apply flat_map_ext_Forall.
  apply Forall_true, nodes_unwrap.
Qed.

(** Dropping the tags removes nodes and changes none. *)
Lemma nodes_decompose (P : kind V → Prop) n :
  Forall P (nodes n) → Forall P (flat_map nodes (decompose n)).
Proof.
  induction n as [s|s|name a kids IH] using html_ind'; [done | done |].
  cbn [nodes decompose]. intros [Hk Hkids]%Forall_cons.
  case_bool_decide; [constructor|]. cbn. rewrite app_nil_r.
  constructor; [done|]. clear Hk.
  induction IH as [|x kids Hx _ IHkids]; [constructor|].
  cbn in *. apply Forall_app in Hkids as [H1 H2].
  rewrite flat_map_app. apply Forall_app. split; [by apply Hx | by apply IHkids].
Qed.

Lemma nodes_decompose_all (P : kind V → Prop) d :
  Forall P (flat_map nodes d) → Forall P (flat_map nodes (flat_map decompose d)).
Proof.
  induction d as [|n d IH]; [done|]. cbn.
  intros [H1 H2]%Forall_app. rewrite flat_map_app. apply Forall_app.
  split; [by apply nodes_decompose | by apply IH].
Qed.

Lemma nodes_decompose_dropped n :
  Forall (λ k, ¬ dropped k) (flat_map nodes (decompose n)).
Proof.
  induction n as [s|s|name a kids IH] using html_ind';
    [by repeat constructor; intros [] ..|].
  cbn [decompose]. case_bool_decide as Hname; [constructor|].
  cbn. rewrite app_nil_r. constructor; [done|].
  induction IH as [|x kids Hx _ IHkids]; [constructor|].
  cbn. rewrite flat_map_app. by apply Forall_app.
Qed.

Lemma nodes_decompose_dropped_all d :
  Forall (λ k, ¬ dropped k) (flat_map nodes (flat_map decompose d)).
Proof.
  induction d as [|n d IH]; [constructor|]. cbn. rewrite flat_map_app.
  apply Forall_app. split; [apply nodes_decompose_dropped | done].
Qed.

(** *** The text and the attributes *)

Lemma sub_nbsp_fixed s : NBSP ∉ s → sub_nbsp s = s.
Proof.
  unfold sub_nbsp. induction s as [|c s IH]; [done|].
  intros [Hc Hs]%not_elem_of_cons. cbn. rewrite IH by done.
  by destruct (N.eqb_spec c NBSP).
Qed.

Lemma sub_nbsp_if s : (if contains NBSP s then sub_nbsp s else s) = sub_nbsp s.
Proof.
  destruct (contains NBSP s) eqn:E; [done|]. symmetry. apply sub_nbsp_fixed.
  intros Hin%contains_spec. congruence.
Qed.

Lemma sub_nbsp_clean s : NBSP ∉ sub_nbsp s.
Proof.
  unfold sub_nbsp. induction s as [|c s IH]; [apply not_elem_of_nil|].
  cbn. apply not_elem_of_cons. split; [|done].
  destruct (N.eqb_spec c NBSP); [done | congruence].
Qed.

Lemma nodes_fmap (f : html V → html V) (g : kind V → kind V) kids :
  Forall (λ n, nodes (f n) = g <$> nodes n) kids →
  flat_map nodes (f <$> kids) = g <$> flat_map nodes kids.
Proof.
  induction 1 as [|n kids Hn _ IH]; [done|]. cbn.
  by rewrite fmap_app, Hn, IH.
Qed.

Lemma nodes_cleaned n :
  Forall (λ k, ¬ is_comment k) (nodes n) →
  nodes (strip_attributes (normalize_nbsp n)) = cleaned_kind <$> nodes n.
Proof.
  induction n as [s|s|name a kids IH] using html_ind'.
  - intros _. cbn. by rewrite sub_nbsp_if.
  - intros [H _]%Forall_cons. by destruct H.
  - cbn [nodes normalize_nbsp strip_attributes]. intros [_ Hkids]%Forall_cons.
    rewrite fmap_cons. cbn [cleaned_kind]. f_equal.
    rewrite <- list_fmap_compose. apply nodes_fmap.
    apply Forall_flat_map in Hkids.
    eapply Forall_impl; [exact (Forall_conj _ _ _ IH Hkids)|].
    intros n [Hn Hc]. cbn. by apply Hn.
Qed.

Lemma nodes_cleaned_all d :
  Forall (λ k, ¬ is_comment k) (flat_map nodes d) →
  flat_map nodes (strip_attributes <$> (normalize_nbsp <$> d))
  = cleaned_kind <$> flat_map nodes d.
Proof.
  intros H%Forall_flat_map. rewrite <- list_fmap_compose. apply nodes_fmap.
  eapply Forall_impl; [exact H|]. intros n Hn. cbn. by apply nodes_cleaned.
Qed.

(** *** The passes together *)

Lemma nodes_unwrap_passes zd_first d :
  flat_map nodes
    (foldl (λ soup tag_name, flat_map (unwrap tag_name) soup) d
       (list_UNWRAP_TAGS zd_first))
  = filter (λ k, ¬ unwrapped k) (flat_map nodes d).
Proof.
  destruct zd_first; cbn [list_UNWRAP_TAGS foldl];
    rewrite !nodes_unwrap_all, list_filter_filter;
    apply list_filter_iff; intros k; unfold unwrapped; tauto.
Qed.

Lemma Forall_filter_keep (P Q : kind V → Prop) `{∀ k, Decision (P k)}
    (l : list (kind V)) :
  Forall Q l → Forall Q (filter P l).
Proof.
  rewrite !Forall_forall. intros HQ x [_ Hx]%list_elem_of_filter. by apply HQ.
Qed.

Lemma Forall_filter_holds (P : kind V → Prop) `{∀ k, Decision (P k)}
    (l : list (kind V)) :
  Forall P (filter P l).
Proof. rewrite Forall_forall. by intros x [? _]%list_elem_of_filter. Qed.

(** After the first two passes: no comment, no dropped tag. *)
Lemma nodes_first_passes d :
  Forall (λ k, ¬ is_comment k ∧ ¬ dropped k)
    (flat_map nodes (flat_map decompose (flat_map extract_comments d))).
Proof.
  apply Forall_and. split; [|apply nodes_decompose_dropped_all].
  apply nodes_decompose_all. rewrite nodes_extract_comments_all.
  apply Forall_filter_holds.
Qed.

(** The nodes of the cleaned document. *)
Lemma nodes_clean_html zd_first d :
  flat_map nodes (clean_html zd_first d)
  = cleaned_kind
    <$> filter (λ k, ¬ unwrapped k)
          (flat_map nodes (flat_map decompose (flat_map extract_comments d))).
Proof.
  unfold clean_html. rewrite nodes_cleaned_all, nodes_unwrap_passes; [done|].
  rewrite nodes_unwrap_passes. apply Forall_filter_keep.
  eapply Forall_impl; [apply nodes_first_passes|]. by intros k [? _].
Qed.

(** *** The nodes of the input that are kept *)

Lemma filter_fmap_comm {X Y} (P : Y → Prop) `{∀ y, Decision (P y)}
    (f : X → Y) (l : list X) :
  filter P (f <$> l) = f <$> filter (λ x, P (f x)) l.
Proof.
  induction l as [|x l IH]; [done|]. rewrite fmap_cons, !filter_cons, IH.
  by destruct (decide (P (f x))).
Qed.

Lemma fmap_flat_map {X Y Z} (g : Y → Z) (f : X → list Y) (l : list X) :
  g <$> flat_map f l = flat_map (λ x, g <$> f x) l.
Proof.
  induction l as [|x l IH]; [done|]. cbn. by rewrite fmap_app, IH.
Qed.

(** Nothing is kept of what is inside a tag that is dropped. *)
Lemma located_inside_dropped n inside :
  ¬ Forall (λ name, name ∉ DROP_TAGS) inside →
  filter survives (located inside n) = [].
Proof.
  revert inside. induction n as [s|s|name a kids IH] using html_ind';
    intros inside Hin; cbn [located];
    (rewrite filter_cons_False by (by intros [? _])); [done | done |].
  rewrite filter_flat_map.
  induction IH as [|k kids Hk _ IHkids]; [done|]. cbn.
  rewrite Hk, IHkids; [done|]. by intros [_ ?]%Forall_cons.
Qed.

Lemma nodes_first_passes_located n inside :
  Forall (λ name, name ∉ DROP_TAGS) inside →
  flat_map nodes (flat_map decompose (extract_comments n))
  = snd <$> filter survives (located inside n).
Proof.
  revert inside. induction n as [s|s|name a kids IH] using html_ind';
    intros inside Hin; cbn [extract_comments located flat_map].
  - rewrite filter_cons_True; [done|]. split_and!; [done | | ]; by intros ?.
  - rewrite filter_cons_False; [done|]. intros (_ & Hc & _). by apply Hc.
  - rewrite app_nil_r. cbn [decompose]. case_bool_decide as Hname.
    + rewrite filter_cons_False by (by intros (_ & _ & Hd); apply Hd).
      rewrite filter_flat_map. cbn.
      clear IH. induction kids as [|k kids IHkids]; [done|]. cbn.
      rewrite located_inside_dropped, IHkids; [done|].
      by intros [? _]%Forall_cons.
    + rewrite filter_cons_True
        by (split_and!; [done | by intros ? | by intros ?]).
      cbn [flat_map nodes fmap list_fmap snd]. rewrite app_nil_r. f_equal.
      rewrite filter_flat_map, fmap_flat_map, !flat_map_flat_map.
      apply flat_map_ext_Forall.
      eapply Forall_impl; [exact IH|]. intros k Hk. cbn.
      rewrite <- flat_map_flat_map. apply Hk. by constructor.
Qed.

Lemma nodes_first_passes_located_all d :
  flat_map nodes (flat_map decompose (flat_map extract_comments d))
  = snd <$> filter survives (flat_map (located []) d).
Proof.
  rewrite filter_flat_map, fmap_flat_map, !flat_map_flat_map.
  apply flat_map_ext_Forall, Forall_true. intros n.
  rewrite <- flat_map_flat_map. by apply nodes_first_passes_located.
Qed.

(** The nodes of the cleaned document are the nodes of the input that are
    kept, cleaned. *)
Lemma nodes_clean_html_located zd_first d :
  flat_map nodes (clean_html zd_first d)
  = (λ p, cleaned_kind p.2) <$> filter kept (flat_map (located []) d).
Proof.
  rewrite nodes_clean_html, nodes_first_passes_located_all.
  rewrite filter_fmap_comm, list_filter_filter, <- list_fmap_compose.
  f_equal. apply list_filter_iff. intros p. unfold kept, survives. tauto.
Qed.

Lemma allowed_ID name : ID ∈ allowed name.
Proof.
  unfold allowed. apply elem_of_union. left. vm_compute.
  apply (bool_decide_unpack _). vm_compute. exact I.
Qed.

Lemma clean_cleaned_kind k :
  ¬ is_comment k → ¬ dropped k → ¬ unwrapped k → clean_kind (cleaned_kind k).
Proof.
  destruct k as [s|s|name a]; cbn; intros Hc Hd Hu.
  - apply sub_nbsp_clean.
  - by apply Hc.
  - split_and!; [done | |].
    + unfold UNWRAP_TAGS. rewrite elem_of_union, !elem_of_singleton.
      unfold unwrapped in Hu. cbn in Hu. tauto.
    + intros key [v Hv]%elem_of_dom.
      by apply map_lookup_filter_Some in Hv as [_ ?].
Qed.

(** *** A cleaned document is left alone *)

Lemma clean_node_fixed n :
  Forall clean_kind (nodes n) →
  extract_comments n = [n] ∧ decompose n = [n]
  ∧ unwrap ZD_HTML_BLOCK n = [n] ∧ unwrap SPAN n = [n]
  ∧ normalize_nbsp n = n ∧ strip_attributes n = n.
Proof.
  induction n as [s|s|name a kids IH] using html_ind'.
  - intros [Hs _]%Forall_cons. cbn in Hs. cbn.
    split_and!; try done. rewrite sub_nbsp_if. by rewrite sub_nbsp_fixed.
  - intros [[] _]%Forall_cons.
  - cbn [nodes]. intros [(Hd & Hu & Ha) Hkids]%Forall_cons.
    apply Forall_flat_map in Hkids.
    pose proof (Forall_conj _ _ _ IH Hkids) as H.
    assert (Forall (λ n, extract_comments n = [n] ∧ decompose n = [n]
                         ∧ unwrap ZD_HTML_BLOCK n = [n] ∧ unwrap SPAN n = [n]
                         ∧ normalize_nbsp n = n ∧ strip_attributes n = n) kids)
      as Hall.
    { eapply Forall_impl; [exact H|]. intros n [Hn Hc]. by apply Hn. }
    clear H IH Hkids.
    unfold UNWRAP_TAGS in Hu.
    rewrite elem_of_union, !elem_of_singleton in Hu.
    cbn [extract_comments decompose unwrap normalize_nbsp strip_attributes].
    rewrite bool_decide_eq_false_2 by done.
    rewrite !bool_decide_eq_false_2 by tauto.
    split_and!; f_equal; f_equal.
    + apply flat_map_singleton. eapply Forall_impl; [exact Hall|]. naive_solver.
    + apply flat_map_singleton. eapply Forall_impl; [exact Hall|]. naive_solver.
    + apply flat_map_singleton. eapply Forall_impl; [exact Hall|]. naive_solver.
    + apply flat_map_singleton. eapply Forall_impl; [exact Hall|]. naive_solver.
    + apply fmap_id_Forall. eapply Forall_impl; [exact Hall|]. naive_solver.
    + apply map_filter_id. intros key v Hv. cbn. apply Ha, elem_of_dom. eauto.
    + apply fmap_id_Forall. eapply Forall_impl; [exact Hall|]. naive_solver.
Qed.

Lemma clean_html_fixed zd_first d :
  Forall clean_kind (flat_map nodes d) → clean_html zd_first d = d.
Proof.
  intros H%Forall_flat_map.
  assert (Forall (λ n, extract_comments n = [n] ∧ decompose n = [n]
                       ∧ unwrap ZD_HTML_BLOCK n = [n] ∧ unwrap SPAN n = [n]
                       ∧ normalize_nbsp n = n ∧ strip_attributes n = n) d)
    as Hall.
  { eapply Forall_impl; [exact H|]. intros n. apply clean_node_fixed. }
  unfold clean_html.
  rewrite (flat_map_singleton extract_comments d)
    by (eapply Forall_impl; [exact Hall|]; naive_solver).
  rewrite (flat_map_singleton decompose d)
    by (eapply Forall_impl; [exact Hall|]; naive_solver).
  assert (foldl (λ soup tag_name, flat_map (unwrap tag_name) soup) d
            (list_UNWRAP_TAGS zd_first) = d) as ->.
  { destruct zd_first; cbn [list_UNWRAP_TAGS foldl].
    - rewrite (flat_map_singleton (unwrap ZD_HTML_BLOCK) d)
        by (eapply Forall_impl; [exact Hall|]; naive_solver).
      apply flat_map_singleton. eapply Forall_impl; [exact Hall|]. naive_solver.
    - rewrite (flat_map_singleton (unwrap SPAN) d)
        by (eapply Forall_impl; [exact Hall|]; naive_solver).
      apply flat_map_singleton. eapply Forall_impl; [exact Hall|]. naive_solver. }
  rewrite (fmap_id_Forall normalize_nbsp d)
    by (eapply Forall_impl; [exact Hall|]; naive_solver).
  apply fmap_id_Forall. eapply Forall_impl; [exact Hall|]. naive_solver.
Qed.

Lemma clean_html_clean zd_first d :
  Forall clean_kind (flat_map nodes (clean_html zd_first d)).
Proof.
  rewrite nodes_clean_html. apply Forall_fmap.
  pose proof (nodes_first_passes d) as H.
  set (l := flat_map nodes (flat_map decompose (flat_map extract_comments d)))
    in *.
  rewrite Forall_forall in *. intros k [Hu Hk]%list_elem_of_filter.
  destruct (H k Hk) as [Hc Hd]. by apply clean_cleaned_kind.
Qed.

(** *** The order of the wrappers *)

Lemma unwrap_comm t1 t2 n :
  flat_map (unwrap t1) (unwrap t2 n) = flat_map (unwrap t2) (unwrap t1 n).
Proof.
  induction n as [s|s|name a kids IH] using html_ind'; [done | done |].
  assert (flat_map (unwrap t1) (flat_map (unwrap t2) kids)
          = flat_map (unwrap t2) (flat_map (unwrap t1) kids)) as Hkids.
  { rewrite !flat_map_flat_map. by apply flat_map_ext_Forall. }
  cbn [unwrap].
  destruct (bool_decide (name = t2)) eqn:E2;
    destruct (bool_decide (name = t1)) eqn:E1;
    cbn [flat_map unwrap]; rewrite ?E1, ?E2, ?app_nil_r; by rewrite ?Hkids.
Qed.

Lemma unwrap_comm_all t1 t2 d :
  flat_map (unwrap t1) (flat_map (unwrap t2) d)
  = flat_map (unwrap t2) (flat_map (unwrap t1) d).
Proof.
  rewrite !flat_map_flat_map. apply flat_map_ext_Forall.
  apply Forall_true. intros n. apply unwrap_comm.
Qed.

End Cleaning.

(** X14: what [clean_html] keeps.  The nodes of the cleaned document are,
    in document order, the nodes of the input that are no comment, are not
    inside a [script] or [style] tag, are no such tag and are no [span] or
    [zd-html-block] wrapper; a text has its no-break spaces replaced by
    spaces, and a tag has its name and its allowed attributes.  [id] is
    allowed on every tag, so every tag that is kept keeps its identifier.
    Of the page of the example a heading, its text and a link with its
    text are kept. *)
Theorem clean_html_keeps {V} (zd_first : bool) (d : list (html V)) :
  flat_map nodes (clean_html zd_first d)
  = (λ p, cleaned_kind p.2) <$> filter kept (flat_map (located []) d)
  ∧ (∀ name (a : gmap str V),
       filter (λ kv, kv.1 ∈ allowed name) a !! ID = a !! ID)
  ∧ filter kept (flat_map (located []) raw_page)
    = [ ([ZD_HTML_BLOCK],
         KTag (py "h1") {[ID := ZD_ID; py "class" := py "big"]});
        ([SPAN; py "h1"; ZD_HTML_BLOCK], KText [71; 111; NBSP; 33]);
        ([ZD_HTML_BLOCK],
         KTag A {[HREF := py "#x"; py "target" := py "_blank"]});
        ([A; ZD_HTML_BLOCK], KText (py "x")) ].
Proof.
  split_and!; [apply nodes_clean_html_located | | vm_compute; reflexivity].
  intros name a. destruct (a !! ID) as [v|] eqn:E.
  - apply map_lookup_filter_Some. split; [done | apply allowed_ID].
  - apply eq_None_not_Some. intros [v Hv].
    apply map_lookup_filter_Some in Hv as [Hv _]. congruence.
Qed.

(** X15: after [clean_html] the document has no comment, no [script] or
    [style] tag, no [span] or [zd-html-block] tag, no no-break space in a
    text, and every attribute of a tag is [id] or one that [ALLOWED_ATTRS]
    lists for the name of the tag. *)
Theorem clean_html_postcondition {V} (zd_first : bool) (d : list (html V))
    (k : kind V) :
  k ∈ flat_map nodes (clean_html zd_first d) →
  match k with
  | KText s => NBSP ∉ s
  | KComment _ => False
  | KTag name a =>
      (name ∉ DROP_TAGS) ∧ (name ∉ UNWRAP_TAGS)
      ∧ ∀ key, is_Some (a !! key) →
               key = ID ∨ key ∈ default ∅ (ALLOWED_ATTRS !! name)
  end.
Proof.
  intros Hk. pose proof (clean_html_clean zd_first d) as H.
  rewrite Forall_forall in H. specialize (H k Hk).
  destruct k as [s|s|name a]; [done | done |].
  destruct H as (Hd & Hu & Ha). split_and!; [done | done |].
  intros key Hkey%elem_of_dom%Ha. unfold allowed in Hkey.
  apply elem_of_union in Hkey as [Hkey|Hkey]; [left | by right].
  change (default ∅ (ALLOWED_ATTRS !! STAR)) with ({[ID]} : gset str) in Hkey.
  by apply elem_of_singleton in Hkey.
Qed.

(** The page of the example: what is left is a heading and a link. *)
Lemma clean_html_postcondition_witness :
  (NBSP ∉ py "Go !")
  ∧ ∀ key, is_Some (({[ID := ZD_ID]} : gmap str str) !! key) →
           key = ID ∨ key ∈ default ∅ (ALLOWED_ATTRS !! py "h1").
Proof.
  split.
  - apply (clean_html_postcondition true raw_page (KText (py "Go !"))).
    rewrite clean_raw_page. apply list_elem_of_further, list_elem_of_here.
  - apply (clean_html_postcondition true raw_page
             (KTag (py "h1") {[ID := ZD_ID]})).
    rewrite clean_raw_page. apply list_elem_of_here.
Defined.

(** X16: [clean_html] is idempotent: cleaning a cleaned document returns
    it as it is. *)
Theorem clean_html_idempotent {V} (zd_first zd_first' : bool)
    (d : list (html V)) :
  clean_html zd_first' (clean_html zd_first d) = clean_html zd_first d.
Proof. apply clean_html_fixed, clean_html_clean. Qed.

(** X17: the order in which the two wrappers are unwrapped, which is the
    order in which the set [UNWRAP_TAGS] is listed, makes no difference. *)
Theorem clean_html_order {V} (d : list (html V)) :
  clean_html true d = clean_html false d.
Proof.
  unfold clean_html. cbn [list_UNWRAP_TAGS foldl]. by rewrite unwrap_comm_all.
Qed.

(** ** The absolute paths of a run *)

Lemma heading_level_tag_level name :
  name ∈ HEADING_TAGS → heading_level name = Some (tag_level name).
Proof.
  unfold HEADING_TAGS. rewrite !elem_of_cons, elem_of_nil.
  intros [->|[->|[->|[->|[->|[->|[]]]]]]]; vm_compute; reflexivity.
Qed.

(** The stack has, at every level, the title of the heading that is open
    at that level; a heading keeps it so. *)
Lemma open_at_push lvl title hid (stack : gmap nat (str * str)) before i :
  (i ≤ 6)%nat →
  (∀ i, (i ≤ 6)%nat → fst <$> stack !! i = open_at i before) →
  fst <$> pop_deeper lvl (<[lvl := (title, hid)]> stack) !! i
  = open_at i ((lvl, title) :: before).
Proof.
  intros Hi Hinv. cbn [open_at]. rewrite lookup_pop_deeper.
  destruct (Nat.eqb_spec lvl i) as [->|Hne].
  - rewrite decide_False by lia. by rewrite lookup_insert_eq.
  - destruct (Nat.ltb_spec lvl i).
    + by rewrite decide_True by lia.
    + rewrite decide_False by lia. rewrite lookup_insert_ne by done.
      by apply Hinv.
Qed.

Lemma each_index_paths lower page_url flag els st st' out before :
  each (index_element lower page_url flag) st els = Some (st', out) →
  (∀ i, (i ≤ 6)%nat → fst <$> stack st !! i = open_at i before) →
  ∃ new,
    rows st' = rows st ++ new
    ∧ (λ r, (row_level r, row_heading r)) <$> new = headings els
    ∧ row_absolutePath <$> new = paths_from before (headings els)
    ∧ Forall (λ r, row_level r = 1%nat → row_absolutePath r = row_heading r)
        new.
Proof.
  revert st out before.
  induction els as [|el els IH]; intros st out before; cbn [each].
  - intros [= <- _] _. exists []. by rewrite app_nil_r.
  - destruct (index_element _ _ _ st el) as [[st1 a']|] eqn:E;
      cbn [mbind option_bind]; [|done].
    destruct (each _ st1 els) as [[st2 out']|] eqn:E';
      cbn [mbind option_bind]; [|done].
    intros [= <- _] Hinv.
    unfold index_element in E. unfold headings. case_bool_decide as Hh.
    + destruct (heading_level_tags _ Hh) as (lvl & Hlvl & Hrange).
      pose proof (heading_level_tag_level _ Hh) as Htl.
      rewrite Hlvl in Htl. injection Htl as Htl.
      rewrite (index_heading_eq _ _ _ _ _ lvl Hlvl) in E. cbn zeta in E.
      injection E as <- _.
      destruct (IH _ _ ((lvl, get_text (py " ") el) :: before) E')
        as (new & Hr & Hlt & Hp & Hone).
      { intros i Hi. cbn [stack]. by apply open_at_push. }
      eexists (_ :: new). cbn [rows] in Hr. rewrite Hr, <- app_assoc.
      split; [done|].
      rewrite filter_cons_True by done. rewrite !fmap_cons.
      cbn [row_level row_heading row_absolutePath paths_from].
      fold (headings els). rewrite <- Htl.
      rewrite path_titles_push by lia. split_and!.
      * by rewrite Hlt.
      * rewrite Hp. f_equal. unfold path_of. f_equal. f_equal.
        apply omap_ext_elem. intros i [? ?]%elem_of_seq. apply Hinv. lia.
      * constructor; [|done]. cbn. by intros ->.
    + injection E as <- _.
      destruct (IH _ _ before E' Hinv) as (new & Hr & Hlt & Hp & Hone).
      exists new. by rewrite filter_cons_False.
Qed.

(** X18: the absolute path of every row is the titles of the open
    ancestors of its heading, in increasing level order, followed by the
    title of the heading itself, joined with [" > "].  The ancestor that
    is open at a level is the last heading of that level before it,
    unless a heading of a lower level has come in between; a level at
    which no heading is open gives no component.  So the path of a
    level-1 heading is its own title.  In the outline of the example the
    [h3] that follows the [h1] directly has a path of two components, and
    the second [h1] closes everything before it. *)
Theorem index_paths (lower : str → str) (soup : list node) (page_url : str)
    (flag : bool) :
  ∃ soup' rows m,
    add_heading_ids_and_collect lower soup page_url flag = Some (soup', rows, m)
    ∧ (λ r, (row_level r, row_heading r)) <$> rows = headings (find_all soup)
    ∧ row_absolutePath <$> rows = paths_from [] (headings (find_all soup))
    ∧ Forall (λ r, row_level r = 1%nat → row_absolutePath r = row_heading r)
        rows
    ∧ headings (find_all outline)
      = [(1%nat, py "A"); (3%nat, py "B"); (2%nat, py "C"); (3%nat, py "D");
         (1%nat, py "E"); (2%nat, py "F")]
    ∧ paths_from [] (headings (find_all outline))
      = [py "A"; py "A > B"; py "A > C"; py "A > C > D"; py "E"; py "E > F"].
Proof.
  destruct (index_run lower soup page_url flag) as (st' & soup' & E & Heach).
  exists soup', (rows st'), (id_map st'). split; [done|].
  destruct (each_index_paths _ _ _ _ _ _ _ [] Heach) as (new & Hr & H).
  { intros i _. cbn [stack]. by rewrite lookup_empty. }
  cbn in Hr. subst new. destruct H as (? & ? & ?).
  split_and!; [done | done | done | vm_compute; reflexivity
               | vm_compute; reflexivity].
Qed.

(** ** The rewriting of one reference *)

(** X19: [rewrite_anchor_href] never raises.  It reports a change exactly
    when the [href] has a hash and the text after the last one is not
    empty and is a key of the map; the new [href] is then what was before
    that hash, the hash and the new identifier.  In every other case it
    returns the [href] it was given. *)
Theorem rewrite_anchor_href_spec (href : str) (m : gmap str str) :
  ∃ new_href changed,
    rewrite_anchor_href href m = Some (new_href, changed)
    ∧ (changed = true ↔
       ∃ base frag, href = base ++ HASH :: frag ∧ (HASH ∉ frag)
                    ∧ frag ≠ [] ∧ frag ∈ dom m)
    ∧ (changed = false → new_href = href)
    ∧ (∀ base frag new,
         href = base ++ HASH :: frag → HASH ∉ frag → frag ≠ [] →
         m !! frag = Some new → new_href = base ++ HASH :: new).
Proof.
  rewrite rewrite_anchor_href_eq.
  destruct (split_last HASH href) as [[base frag]|] eqn:Es.
  - pose proof Es as [-> Hno]%split_last_Some.
    assert (∀ base' frag', base ++ HASH :: frag = base' ++ HASH :: frag' →
              HASH ∉ frag' → base' = base ∧ frag' = frag) as Huniq.
    { intros base' frag' Heq Hno'.
      assert (split_last HASH (base' ++ HASH :: frag') = Some (base', frag'))
        as Hs' by (by apply split_last_Some).
      rewrite <- Heq, Es in Hs'. by injection Hs' as <- <-. }
    destruct (m !! frag) as [new|] eqn:Em; [destruct (nonempty frag) eqn:En|].
    + eexists _, _. split; [done|]. apply nonempty_true in En. split_and!.
      * split; [|done]. intros _. exists base, frag.
        split_and!; [done | done | done |]. apply elem_of_dom. eauto.
      * done.
      * intros base' frag' new' Heq Hno' _ Hm'.
        destruct (Huniq _ _ Heq Hno') as [-> ->]. congruence.
    + eexists _, _. split; [done|]. apply nonempty_false in En. split_and!.
      * split; [done|]. intros (base' & frag' & Heq & Hno' & Hne & _).
        destruct (Huniq _ _ Heq Hno') as [_ ->]. done.
      * done.
      * intros base' frag' new' Heq Hno' Hne _.
        destruct (Huniq _ _ Heq Hno') as [_ ->]. done.
    + eexists _, _. split; [done|]. split_and!.
      * split; [done|]. intros (base' & frag' & Heq & Hno' & _ & Hin).
        destruct (Huniq _ _ Heq Hno') as [_ ->].
        apply elem_of_dom in Hin as [? ?]. congruence.
      * done.
      * intros base' frag' new' Heq Hno' _ Hm'.
        destruct (Huniq _ _ Heq Hno') as [_ ->]. congruence.
  - apply split_last_None in Es. eexists _, _. split; [done|]. split_and!.
    + split; [done|]. intros (base' & frag' & -> & _).
      exfalso. apply Es, elem_of_app. right. apply list_elem_of_here.
    + done.
    + intros base' frag' new' -> _ _ _.
      exfalso. apply Es, elem_of_app. right. apply list_elem_of_here.
Qed.
